(** * py-caskdb: the record codec ([format.py]) and the log-structured
    storage engine ([disk_store.py]), embedded shallowly.

    Python [int] is [Z]; [bytes] is [list byte]; [str] is the list of its
    Unicode code points; the [dict] behind [key_dir] is a [gmap]; Python
    exceptions are the [Raise] branch of [result]. *)

From Stdlib Require Import ZArith NArith Lia.
From Stdlib Require Import Strings.Byte.
From stdpp Require Import base option list gmap strings.

Local Open Scope Z_scope.

(** ** Exceptions and results *)

Inductive exn : Type :=
  | StructError          (* struct.error *)
  | UnicodeEncodeError
  | UnicodeDecodeError
  | AssertionError
  | FileNotFoundError
  | OSError
  | ValueError.

Inductive result (A : Type) : Type :=
  | Ok (a : A)
  | Raise (e : exn).
Arguments Ok {A} a.
Arguments Raise {A} e.

#[global] Instance result_ret : MRet result := fun A a => Ok a.
#[global] Instance result_bind : MBind result := fun A B f r =>
  match r with
  | Ok a => f a
  | Raise e => Raise e
  end.

(** [assert(c)] *)
Definition assert (c : bool) : result unit :=
  if c then Ok tt else Raise AssertionError.

Abbreviation bytes := (list byte).

(** A Python [str]: its code points, each in [range(0x110000)]. *)
Abbreviation str := (list N).

(** [len(x)] *)
Definition len {A} (l : list A) : Z := Z.of_nat (length l).

Module Format.

(** *** Bytes as numbers *)

Definition byte_of_N (n : N) : byte := default x00 (Byte.of_N n).
Definition byte_val (b : byte) : Z := Z.of_N (Byte.to_N b).
Definition byte_of_Z (z : Z) : byte := byte_of_N (Z.to_N z).

(** *** [struct]: the formats used by [format.py] *)

(** Little-endian unsigned integer of [n] bytes. *)
Fixpoint le_encode (n : nat) (x : Z) : bytes :=
  match n with
  | O => []
  | S n' => byte_of_Z (x mod 256) :: le_encode n' (x / 256)
  end.

Fixpoint le_decode (bs : bytes) : Z :=
  match bs with
  | [] => 0
  | b :: bs' => byte_val b + 256 * le_decode bs'
  end.

(** One ["I"] field of [pack]: [struct.error] unless [0 <= x <= 4294967295]. *)
Definition pack_I (x : Z) : result bytes :=
  if (0 <=? x) && (x <? 4294967296) then Ok (le_encode 4 x)
  else Raise StructError.

(** [pack("<III", a, b, c)] *)
Definition pack_III (a b c : Z) : result bytes :=
  x ← pack_I a; y ← pack_I b; z ← pack_I c; Ok (x ++ y ++ z).

(** [unpack("<III", data)]: the buffer must hold exactly 12 bytes. *)
Definition unpack_III (data : bytes) : result (Z * Z * Z) :=
  if len data =? 12
  then Ok (le_decode (take 4 data),
           le_decode (take 4 (drop 4 data)),
           le_decode (take 4 (drop 8 data)))
  else Raise StructError.

(** [unpack(f"<{m}s{n}s", data)]: the buffer must hold exactly [m + n]
    bytes. *)
Definition unpack_ss (m n : Z) (data : bytes) : result (bytes * bytes) :=
  if len data =? m + n
  then Ok (take (Z.to_nat m) data, drop (Z.to_nat m) data)
  else Raise StructError.

(** *** The [utf-8] codec of [str.encode] and [bytes.decode] (strict) *)

Local Open Scope N_scope.

Definition is_surrogate (cp : N) : bool := (0xD800 <=? cp) && (cp <=? 0xDFFF).

(** Surrogates cannot be encoded.  A Python [str] never holds a code point
    above 0x10FFFF; the encoder refuses one, so that the lists it accepts
    are exactly the Python strings that encode. *)
Definition encode_cp (cp : N) : result bytes :=
  if cp <? 0x80 then Ok [byte_of_N cp]
  else if cp <? 0x800 then
    Ok [byte_of_N (0xC0 + cp / 64); byte_of_N (0x80 + cp mod 64)]
  else if cp <? 0x10000 then
    if is_surrogate cp then Raise UnicodeEncodeError
    else Ok [byte_of_N (0xE0 + cp / 4096);
             byte_of_N (0x80 + (cp / 64) mod 64);
             byte_of_N (0x80 + cp mod 64)]
  else if cp <? 0x110000 then
    Ok [byte_of_N (0xF0 + cp / 262144);
        byte_of_N (0x80 + (cp / 4096) mod 64);
        byte_of_N (0x80 + (cp / 64) mod 64);
        byte_of_N (0x80 + cp mod 64)]
  else Raise UnicodeEncodeError.

Fixpoint encode_utf8 (s : str) : result bytes :=
  match s with
  | [] => Ok []
  | cp :: s' => b ← encode_cp cp; bs ← encode_utf8 s'; Ok (b ++ bs)
  end.

(** The payload of a continuation byte [10xxxxxx]. *)
Definition continuation (b : byte) : option N :=
  let n := Byte.to_N b in
  if (0x80 <=? n) && (n <? 0xC0) then Some (n - 0x80) else None.

(** Strict decoding: truncated sequences, stray continuation bytes,
    overlong forms, surrogates and values above 0x10FFFF are errors. *)
Fixpoint decode_utf8 (bs : bytes) : result str :=
  match bs with
  | [] => Ok []
  | b0 :: r0 =>
    let n0 := Byte.to_N b0 in
    if n0 <? 0x80 then s ← decode_utf8 r0; Ok (n0 :: s)
    else if n0 <? 0xC0 then Raise UnicodeDecodeError
    else if n0 <? 0xE0 then
      match r0 with
      | b1 :: r1 =>
        match continuation b1 with
        | Some c1 =>
          let cp := (n0 - 0xC0) * 64 + c1 in
          if cp <? 0x80 then Raise UnicodeDecodeError
          else s ← decode_utf8 r1; Ok (cp :: s)
        | None => Raise UnicodeDecodeError
        end
      | _ => Raise UnicodeDecodeError
      end
    else if n0 <? 0xF0 then
      match r0 with
      | b1 :: b2 :: r2 =>
        match continuation b1, continuation b2 with
        | Some c1, Some c2 =>
          let cp := (n0 - 0xE0) * 4096 + c1 * 64 + c2 in
          if (cp <? 0x800) || is_surrogate cp then Raise UnicodeDecodeError
          else s ← decode_utf8 r2; Ok (cp :: s)
        | _, _ => Raise UnicodeDecodeError
        end
      | _ => Raise UnicodeDecodeError
      end
    else if n0 <? 0xF8 then
      match r0 with
      | b1 :: b2 :: b3 :: r3 =>
        match continuation b1, continuation b2, continuation b3 with
        | Some c1, Some c2, Some c3 =>
          let cp := (n0 - 0xF0) * 262144 + c1 * 4096 + c2 * 64 + c3 in
          if (cp <? 0x10000) || (0x110000 <=? cp) then Raise UnicodeDecodeError
          else s ← decode_utf8 r3; Ok (cp :: s)
        | _, _, _ => Raise UnicodeDecodeError
        end
      | _ => Raise UnicodeDecodeError
      end
    else Raise UnicodeDecodeError
  end.

Local Close Scope N_scope.

(** *** [format.py] *)

Definition encode_header (timestamp key_size value_size : Z) : result bytes :=
  pack_III timestamp key_size value_size.

Definition encode_kv (timestamp : Z) (key value : str) : result (Z * bytes) :=
  key_bytes ← encode_utf8 key;
  value_bytes ← encode_utf8 value;
  let key_size := len key_bytes in
  let value_size := len value_bytes in
  header ← encode_header timestamp key_size value_size;
  let datum := header ++ key_bytes ++ value_bytes in
  Ok (len datum - 12, datum).

Definition decode_kv (data : bytes) : result (Z * str * str) :=
  '(timestamp, key_size, value_size) ← unpack_III (take 12 data);
  '(key, value) ← unpack_ss key_size value_size (drop 12 data);
  k ← decode_utf8 key;
  v ← decode_utf8 value;
  Ok (timestamp, k, v).

Definition decode_header (data : bytes) : result (Z * Z * Z) :=
  unpack_III data.

End Format.

Module DiskStore.
Import Format.

(** *** Binary file objects *)

(** An open file: the bytes behind it and the position of its cursor. *)
Record file : Type := File { contents : bytes; offset : nat }.

(** [file.tell()] *)
Definition tell (f : file) : Z := Z.of_nat (offset f).

(** [file.read(n)]: at most [n] bytes from the cursor on, fewer at the end
    of the file; [read(-1)] reads to the end, a smaller [n] is refused. *)
Definition read (n : Z) (f : file) : result (bytes * file) :=
  if n <? -1 then Raise ValueError
  else
    let rest := drop (offset f) (contents f) in
    let chunk := if n =? -1 then rest else take (Z.to_nat n) rest in
    Ok (chunk, File (contents f) (offset f + length chunk)).

(** [file.seek(p)]: a negative position is refused, one beyond the end of
    the file is accepted. *)
Definition seek (p : Z) (f : file) : result file :=
  if p <? 0 then Raise OSError else Ok (File (contents f) (Z.to_nat p)).

(** *** The engine and the disk it lives on *)

(** A key directory entry: (file name, record length, offset, timestamp). *)
Abbreviation entry := (string * Z * Z * Z)%type.

Record DiskStorage : Type := {
  timestamp : Z;
  file_name : string;
  key_dir : gmap str entry
}.

Definition with_timestamp (t : Z) (s : DiskStorage) : DiskStorage :=
  {| timestamp := t; file_name := file_name s; key_dir := key_dir s |}.

Definition with_key_dir (kd : gmap str entry) (s : DiskStorage) : DiskStorage :=
  {| timestamp := timestamp s; file_name := file_name s; key_dir := kd |}.

(** What a method can see and change: the files, by name, and [self]. *)
Record world : Type := World { disk : gmap string bytes; self : DiskStorage }.

(** Methods run in a state monad over [world]; an exception keeps the
    mutations made before it was raised. *)
Definition M (A : Type) : Type := world → result A * world.

#[global] Instance M_ret : MRet M := fun A a w => (Ok a, w).
#[global] Instance M_bind : MBind M := fun A B f m w =>
  match m w with
  | (Ok a, w') => f a w'
  | (Raise e, w') => (Raise e, w')
  end.

Definition lift {A} (r : result A) : M A := fun w => (r, w).
Definition get_self : M DiskStorage := fun w => (Ok (self w), w).
Definition put_self (s : DiskStorage) : M unit := fun w => (Ok tt, World (disk w) s).

(** [self.key_dir[key] = e] *)
Definition key_dir_setitem (key : str) (e : entry) : M unit :=
  s ← get_self; put_self (with_key_dir (<[key := e]> (key_dir s)) s).

(** [open(name, 'rb')] *)
Definition open_rb (name : string) : M file := fun w =>
  match disk w !! name with
  | Some data => (Ok (File data 0), w)
  | None => (Raise FileNotFoundError, w)
  end.

(** [open(name, 'ab')]: creates the file when there is none; the cursor is
    at the end of the file. *)
Definition open_ab (name : string) : M file := fun w =>
  let data := default [] (disk w !! name) in
  (Ok (File data (length data)), World (<[name := data]> (disk w)) (self w)).

(** [file.write(datum)] on a file opened for appending, the file being
    closed when the [with] block ends. *)
Definition write_ab (name : string) (datum : bytes) : M unit := fun w =>
  let data := default [] (disk w !! name) in
  (Ok tt, World (<[name := data ++ datum]> (disk w)) (self w)).

(** [open(name, 'rb+')] *)
Definition open_rb_plus (name : string) : M file := open_rb name.

(** *** [DiskStorage] *)

(** One turn of the [while True] loop of [key_dir_from]: [None] is [break]. *)
Definition key_dir_from_body (s : DiskStorage) (f : file)
    : result (option (DiskStorage * file)) :=
  let pos := tell f in
  '(header, f) ← read 12 f;
  if bool_decide (header = []) then Ok None
  else
    '(timestamp, key_size, value_size) ← decode_header header;
    assert (0 <? key_size);;
    assert (0 <? value_size);;
    '(key_bytes, f) ← read key_size f;
    assert (0 <? len key_bytes);;
    key ← decode_utf8 key_bytes;
    f ← seek (pos + 12 + key_size + value_size) f;
    Ok (Some (with_key_dir
                (<[key := (file_name s, 12 + key_size + value_size, pos, timestamp)]>
                   (key_dir s)) s, f)).

(** The loop, bounded by [fuel] turns; [None] when the fuel runs out. *)
Fixpoint key_dir_loop (fuel : nat) (s : DiskStorage) (f : file)
    : option (result DiskStorage) :=
  match fuel with
  | O => None
  | S fuel' =>
    match key_dir_from_body s f with
    | Raise e => Some (Raise e)
    | Ok None => Some (Ok s)
    | Ok (Some (s', f')) => key_dir_loop fuel' s' f'
    end
  end.

(** Every turn that does not leave the loop moves the cursor forward from a
    position inside the file, so one turn per byte, and one more, is
    enough. *)
Definition key_dir_from (s : DiskStorage) (f : file) : option (result DiskStorage) :=
  key_dir_loop (S (length (contents f))) s f.

(** [DiskStorage(file_name)], over the files [d]. *)
Definition init (d : gmap string bytes) (file_name : string)
    : option (result DiskStorage) :=
  let s := {| timestamp := 0; file_name := file_name; key_dir := ∅ |} in
  match d !! file_name with
  | Some data => key_dir_from s (File data 0)
  | None => Some (Ok s)
  end.

Definition next_timestamp : M Z :=
  s ← get_self;
  put_self (with_timestamp (timestamp s + 1) s);;
  s ← get_self;
  mret (timestamp s).

Definition set (key value : str) : M unit :=
  timestamp ← next_timestamp;
  '(datum_sz, datum) ← lift (encode_kv timestamp key value);
  s ← get_self;
  file ← open_ab (file_name s);
  let pos := tell file in
  key_dir_setitem key (file_name s, datum_sz + 12, pos, timestamp);;
  write_ab (file_name s) datum.

Definition get (key : str) : M str :=
  s ← get_self;
  match key_dir s !! key with
  | None => mret []
  | Some (file_name', datum_sz, pos, timestamp') =>
    lift (assert (bool_decide (file_name' = file_name s)));;
    file ← open_rb file_name';
    file ← lift (seek pos file);
    '(datum, file) ← lift (read datum_sz file);
    '(stored_timestamp, stored_key, stored_value) ← lift (decode_kv datum);
    lift (assert (bool_decide (key = stored_key)));;
    lift (assert (bool_decide (timestamp' = stored_timestamp)));;
    mret stored_value
  end.

(** Nothing is buffered between calls: [flush] and [fsync] change no byte. *)
Definition close : M unit :=
  s ← get_self;
  file ← open_rb_plus (file_name s);
  mret tt.

Definition __setitem__ (key value : str) : M unit := set key value.
Definition __getitem__ (item : str) : M str := get item.

End DiskStore.


(** ** One code point of UTF-8 *)

Module Utf8.
Import Format.

Local Open Scope N_scope.

(** The first code point of a buffer and the bytes after it, as
    [decode_utf8] reads them; [None] where [decode_utf8] raises. *)
Definition decode_cp (bs : bytes) : option (N * bytes) :=
  match bs with
  | [] => None
  | b0 :: r0 =>
    let n0 := Byte.to_N b0 in
    if n0 <? 0x80 then Some (n0, r0)
    else if n0 <? 0xC0 then None
    else if n0 <? 0xE0 then
      match r0 with
      | b1 :: r1 =>
        match continuation b1 with
        | Some c1 =>
          let cp := (n0 - 0xC0) * 64 + c1 in
          if cp <? 0x80 then None else Some (cp, r1)
        | None => None
        end
      | _ => None
      end
    else if n0 <? 0xF0 then
      match r0 with
      | b1 :: b2 :: r2 =>
        match continuation b1, continuation b2 with
        | Some c1, Some c2 =>
          let cp := (n0 - 0xE0) * 4096 + c1 * 64 + c2 in
          if (cp <? 0x800) || is_surrogate cp then None else Some (cp, r2)
        | _, _ => None
        end
      | _ => None
      end
    else if n0 <? 0xF8 then
      match r0 with
      | b1 :: b2 :: b3 :: r3 =>
        match continuation b1, continuation b2, continuation b3 with
        | Some c1, Some c2, Some c3 =>
          let cp := (n0 - 0xF0) * 262144 + c1 * 4096 + c2 * 64 + c3 in
          if (cp <? 0x10000) || (0x110000 <=? cp) then None else Some (cp, r3)
        | _, _, _ => None
        end
      | _ => None
      end
    else None
  end.

End Utf8.

(** ** The log file *)

Module Log.
Import Format.

(** The bytes of one record: the 12-byte header (three little-endian
    unsigned 32-bit integers), then the key bytes, then the value bytes. *)
Definition record_bytes (ts : Z) (kb vb : bytes) : bytes :=
  le_encode 4 ts ++ le_encode 4 (len kb) ++ le_encode 4 (len vb) ++ kb ++ vb.

(** A record as it lies on disk: the timestamp and the raw key and value. *)
Record raw_record : Type := RawRecord {
  r_timestamp : Z;
  r_key : bytes;
  r_value : bytes
}.

Definition raw_bytes (r : raw_record) : bytes :=
  record_bytes (r_timestamp r) (r_key r) (r_value r).

(** A file made of whole records, back to back. *)
Definition log_of (rs : list raw_record) : bytes := concat (map raw_bytes rs).

(** A record the startup scan accepts: three fields that fit 32 bits, a key
    and a value of at least one byte, a key that is valid UTF-8. *)
Definition loadable (r : raw_record) : bool :=
  (0 <=? r_timestamp r) && (r_timestamp r <? 4294967296) &&
  (0 <? len (r_key r)) && (len (r_key r) <? 4294967296) &&
  (0 <? len (r_value r)) && (len (r_value r) <? 4294967296) &&
  match decode_utf8 (r_key r) with Ok _ => true | Raise _ => false end.

(** A valid log file: whole loadable records and nothing else. *)
Definition valid_log (data : bytes) : Prop :=
  ∃ rs, forallb loadable rs = true ∧ data = log_of rs.

End Log.

(** ** Sequences of calls *)

Module Calls.
Import Format DiskStore Log.

(** The directory that indexes the records [rs] lying from offset [pos] on
    in the file [name], on top of [kd]. *)
Fixpoint index_records (name : string) (pos : Z) (rs : list raw_record)
    (kd : gmap str entry) : gmap str entry :=
  match rs with
  | [] => kd
  | r :: rs' =>
    match decode_utf8 (r_key r) with
    | Ok key =>
      index_records name (pos + len (raw_bytes r)) rs'
        (<[key := (name, len (raw_bytes r), pos, r_timestamp r)]> kd)
    | Raise _ => kd
    end
  end.

(** [set(k, v)] for each pair in turn, up to the first exception. *)
Fixpoint run_sets (kvs : list (str * str)) : M unit :=
  match kvs with
  | [] => mret tt
  | (k, v) :: kvs' => set k v;; run_sets kvs'
  end.

(** The state after [set(k, v)] was called for each pair in turn, the
    caller going on after an exception. *)
Fixpoint after_sets (kvs : list (str * str)) (w : world) : world :=
  match kvs with
  | [] => w
  | (k, v) :: kvs' => after_sets kvs' (snd (set k v w))
  end.

(** The last value written under [key] by the calls [kvs]. *)
Fixpoint last_write (key : str) (kvs : list (str * str)) : option str :=
  match kvs with
  | [] => None
  | (k, v) :: kvs' =>
    match last_write key kvs' with
    | Some v' => Some v'
    | None => if bool_decide (k = key) then Some v else None
    end
  end.

(** The startup scan gets from the state [(s0, f0)] of its loop to the
    state [(s, f)] in zero or more turns. *)
Definition scan_turn (x y : DiskStorage * file) : Prop :=
  key_dir_from_body x.1 x.2 = Ok (Some y).

Definition scan_reaches (s0 : DiskStorage) (f0 : file) (s : DiskStorage) (f : file) : Prop :=
  rtc scan_turn (s0, f0) (s, f).

(** The directory entry of [key] lies inside the file and the bytes it spans
    decode to its timestamp, to [key] and to [v]. *)
Definition points_at (w : world) (key v : str) : Prop :=
  ∃ data sz pos ts,
    key_dir (self w) !! key = Some (file_name (self w), sz, pos, ts) ∧
    disk w !! file_name (self w) = Some data ∧
    0 ≤ pos ∧ 0 ≤ sz ∧ pos + sz ≤ len data ∧
    decode_kv (take (Z.to_nat sz) (drop (Z.to_nat pos) data)) = Ok (ts, key, v).

(** The entry [e] spans a whole record of [data] whose key bytes decode to
    [key]; [vb] are the value bytes of that record. *)
Definition entry_spans (name : string) (data : bytes) (key : str) (e : entry)
    (vb : bytes) : Prop :=
  ∃ ts kb pre post,
    e = (name, len (record_bytes ts kb vb), len pre, ts) ∧
    data = pre ++ record_bytes ts kb vb ++ post ∧
    decode_utf8 kb = Ok key ∧
    0 ≤ ts < 4294967296 ∧ len kb < 4294967296 ∧ len vb < 4294967296.

(** Every entry of the key directory spans a whole record of the engine's
    file, and that record holds the entry's key and timestamp. *)
Definition dir_sound (w : world) : Prop :=
  ∀ key e, key_dir (self w) !! key = Some e →
    ∃ data vb, disk w !! file_name (self w) = Some data ∧
      entry_spans (file_name (self w)) data key e vb.

(** The key of a raw record is [key]. *)
Definition has_key (key : str) (r : raw_record) : Prop :=
  decode_utf8 (r_key r) = Ok key.

(** [file.seek(pos); file.read(n)] on a file with bytes [data]. *)
Definition read_at (data : bytes) (pos n : Z) : result bytes :=
  f ← seek pos (File data 0); '(datum, _) ← read n f; Ok datum.

(** Sample strings. *)
Definition s_k : str := [107%N].
Definition s_v1 : str := [118%N; 49%N].
Definition s_v2 : str := [118%N; 50%N].
Definition s_othello : str := [111;116;104;101;108;108;111]%N.
Definition s_hamlet : str := [104;97;109;108;101;116]%N.
Definition s_shakespeare : str := [115;104;97;107;101;115;112;101;97;114;101]%N.

(** A string of 4294967296 letters [a]. *)
Definition s_4GiB : str := replicate (Z.to_nat 4294967296) 97%N.

(** A log whose second record declares an empty key. *)
Definition bad_log : bytes :=
  record_bytes 1 ["k"%byte] ["v"%byte; "1"%byte]
  ++ (le_encode 4 2 ++ le_encode 4 0 ++ le_encode 4 5)
  ++ ["v"%byte; "a"%byte; "l"%byte; "u"%byte; "e"%byte].

(** A log of one record, written with timestamp 7. *)
Definition old_log : bytes := record_bytes 7 ["k"%byte] ["v"%byte; "1"%byte].

(** A log that ends inside its only record: the header declares a key of 1
    byte and a value of 20 bytes, and the value is missing. *)
Definition truncated_log : bytes :=
  (le_encode 4 1 ++ le_encode 4 1 ++ le_encode 4 20) ++ ["k"%byte].

(** A log of two records with the key [k], then one with the key
    [othello]. *)
Definition three_records : list raw_record :=
  [RawRecord 1 ["k"%byte] ["v"%byte; "1"%byte];
   RawRecord 2 ["k"%byte] ["v"%byte; "2"%byte];
   RawRecord 3 ["o"%byte; "t"%byte; "h"%byte; "e"%byte; "l"%byte; "l"%byte; "o"%byte]
     ["x"%byte]].

(** A fresh engine on a disk without files. *)
Definition fresh (name : string) : DiskStorage :=
  {| timestamp := 0; file_name := name; key_dir := ∅ |}.

End Calls.

(** * Proofs *)

Module FormatFacts.
Import Format Log.

(** Linear arithmetic with division and remainder by constants. *)
Ltac div_lia := zify; Z.to_euclidean_division_equations; lia.

Lemma to_N_byte_of_N (n : N) : (n < 256)%N → Byte.to_N (byte_of_N n) = n.
Proof.
  intros Hn. unfold byte_of_N.
  destruct (Byte.of_N n) as [b|] eqn:E; simpl.
  - by apply Byte.to_of_N.
  - apply Byte.of_N_None_iff in E. lia.
Qed.

Lemma byte_val_range (b : byte) : 0 ≤ byte_val b < 256.
Proof. unfold byte_val. pose proof (Byte.to_N_bounded b). lia. Qed.

Lemma byte_val_byte_of_Z (z : Z) : 0 ≤ z < 256 → byte_val (byte_of_Z z) = z.
Proof.
  intros Hz. unfold byte_val, byte_of_Z.
  rewrite to_N_byte_of_N by lia. lia.
Qed.

Lemma length_le_encode (n : nat) (x : Z) : length (le_encode n x) = n.
Proof. revert x. induction n as [|n IH]; intros x; simpl; [done|by rewrite IH]. Qed.

Lemma le_decode_encode (n : nat) (x : Z) :
  le_decode (le_encode n x) = x mod 256 ^ Z.of_nat n.
Proof.
  revert x. induction n as [|n IH]; intros x.
  - simpl. by rewrite Z.mod_1_r.
  - cbn [le_encode le_decode]. rewrite IH.
    rewrite byte_val_byte_of_Z by (apply Z.mod_pos_bound; lia).
    rewrite Nat2Z.inj_succ, Z.pow_succ_r by lia.
    rewrite (Z.rem_mul_r x 256 (256 ^ Z.of_nat n)) by lia. done.
Qed.

Lemma le_decode_encode_4 (x : Z) :
  0 ≤ x < 4294967296 → le_decode (le_encode 4 x) = x.
Proof.
  intros Hx. rewrite le_decode_encode.
  change (256 ^ Z.of_nat 4) with 4294967296. by apply Z.mod_small.
Qed.

Lemma pack_I_Ok (x : Z) (bs : bytes) :
  pack_I x = Ok bs ↔ 0 ≤ x < 4294967296 ∧ bs = le_encode 4 x.
Proof.
  unfold pack_I.
  destruct (Z.leb_spec 0 x), (Z.ltb_spec x 4294967296); simpl;
    split; try (intros [??]; lia); try congruence; try done.
  - intros [= <-]. done.
  - intros [_ ->]. done.
Qed.

Lemma pack_I_range (x : Z) : 0 ≤ x < 4294967296 → pack_I x = Ok (le_encode 4 x).
Proof. intros. by apply pack_I_Ok. Qed.

Lemma pack_I_out_of_range (x : Z) :
  ¬ (0 ≤ x < 4294967296) → pack_I x = Raise StructError.
Proof.
  intros Hx. unfold pack_I.
  destruct (Z.leb_spec 0 x), (Z.ltb_spec x 4294967296); simpl; try done. lia.
Qed.

Lemma pack_III_Ok (a b c : Z) (h : bytes) :
  pack_III a b c = Ok h ↔
  (0 ≤ a < 4294967296 ∧ 0 ≤ b < 4294967296 ∧ 0 ≤ c < 4294967296) ∧
  h = le_encode 4 a ++ le_encode 4 b ++ le_encode 4 c.
Proof.
  unfold pack_III. split.
  - destruct (pack_I a) as [x|] eqn:Ea; [|done].
    destruct (pack_I b) as [y|] eqn:Eb; [|done].
    destruct (pack_I c) as [z|] eqn:Ec; [|done].
    apply pack_I_Ok in Ea as [? ->], Eb as [? ->], Ec as [? ->].
    intros [= <-]. done.
  - intros [(?&?&?) ->]. rewrite !pack_I_range by done. done.
Qed.

Lemma unpack_III_le_encode (a b c : Z) :
  0 ≤ a < 4294967296 → 0 ≤ b < 4294967296 → 0 ≤ c < 4294967296 →
  unpack_III (le_encode 4 a ++ le_encode 4 b ++ le_encode 4 c) = Ok (a, b, c).
Proof.
  intros Ha Hb Hc. unfold unpack_III, len.
  rewrite !length_app, !length_le_encode. simpl Z.eqb. cbv iota.
  rewrite (take_app_length' (le_encode 4 a)) by (by rewrite length_le_encode).
  rewrite (drop_app_length' (le_encode 4 a)) by (by rewrite length_le_encode).
  rewrite (take_app_length' (le_encode 4 b)) by (by rewrite length_le_encode).
  change 8%nat with (4 + 4)%nat. rewrite <- drop_drop.
  rewrite (drop_app_length' (le_encode 4 a)) by (by rewrite length_le_encode).
  rewrite (drop_app_length' (le_encode 4 b)) by (by rewrite length_le_encode).
  rewrite take_ge by (rewrite length_le_encode; lia).
  by rewrite !le_decode_encode_4.
Qed.

(** *** UTF-8 *)

Local Open Scope N_scope.

Lemma continuation_byte_of_N (x : N) :
  x < 64 → continuation (byte_of_N (0x80 + x)) = Some x.
Proof.
  intros Hx. unfold continuation.
  rewrite to_N_byte_of_N by lia.
  destruct (N.leb_spec 0x80 (0x80 + x)), (N.ltb_spec (0x80 + x) 0xC0);
    simpl; try lia.
  f_equal. lia.
Qed.

Ltac decide_ltb :=
  repeat match goal with
  | |- context [?a <? ?b] =>
    first [ rewrite (proj2 (N.ltb_lt a b)) by div_lia
          | rewrite (proj2 (N.ltb_ge a b)) by div_lia ]
  | |- context [?a <=? ?b] =>
    first [ rewrite (proj2 (N.leb_le a b)) by div_lia
          | rewrite (proj2 (N.leb_gt a b)) by div_lia ]
  end.

Lemma decode_encode_cp (cp : N) (bs rest : bytes) :
  encode_cp cp = Ok bs →
  decode_utf8 (bs ++ rest) = (s ← decode_utf8 rest; Ok (cp :: s)).
Proof.
  unfold encode_cp, is_surrogate.
  destruct (N.ltb_spec cp 0x80) as [H1|H1].
  { intros [= <-]. cbn [app decode_utf8].
    rewrite to_N_byte_of_N by lia. by decide_ltb. }
  destruct (N.ltb_spec cp 0x800) as [H2|H2].
  { intros [= <-]. cbn [app decode_utf8].
    rewrite to_N_byte_of_N by div_lia.
    rewrite continuation_byte_of_N by div_lia.
    decide_ltb.
    replace ((0xC0 + cp / 64 - 0xC0) * 64 + cp mod 64) with cp by div_lia.
    by decide_ltb. }
  destruct (N.ltb_spec cp 0x10000) as [H3|H3].
  { destruct (N.leb_spec 0xD800 cp) as [H4|H4];
      [destruct (N.leb_spec cp 0xDFFF) as [H5|H5]|]; simpl; [done|..];
      intros [= <-]; cbn [app decode_utf8];
      rewrite to_N_byte_of_N by div_lia;
      rewrite !continuation_byte_of_N by div_lia;
      decide_ltb;
      replace ((0xE0 + cp / 4096 - 0xE0) * 4096 + cp / 64 mod 64 * 64 + cp mod 64)
        with cp by div_lia;
      unfold is_surrogate; by decide_ltb. }
  destruct (N.ltb_spec cp 0x110000) as [H4|H4]; [|done].
  intros [= <-]. cbn [app decode_utf8].
  rewrite to_N_byte_of_N by div_lia.
  rewrite !continuation_byte_of_N by div_lia.
  decide_ltb.
  replace ((0xF0 + cp / 262144 - 0xF0) * 262144 + cp / 4096 mod 64 * 4096
           + cp / 64 mod 64 * 64 + cp mod 64) with cp by div_lia.
  by decide_ltb.
Qed.

Local Close Scope N_scope.

Lemma encode_utf8_cons_Ok (cp : N) (s : str) (bs : bytes) :
  encode_utf8 (cp :: s) = Ok bs →
  ∃ b bs', encode_cp cp = Ok b ∧ encode_utf8 s = Ok bs' ∧ bs = b ++ bs'.
Proof.
  cbn [encode_utf8].
  destruct (encode_cp cp) as [b|]; [|done].
  destruct (encode_utf8 s) as [bs'|]; [|done].
  intros [= <-]. eauto.
Qed.

(** Decoding undoes encoding. *)
Lemma decode_encode_utf8 (s : str) (bs : bytes) :
  encode_utf8 s = Ok bs → decode_utf8 bs = Ok s.
Proof.
  revert bs. induction s as [|cp s IH]; intros bs.
  - by intros [= <-].
  - intros (b & bs' & Hcp & Hs & ->)%encode_utf8_cons_Ok.
    rewrite (decode_encode_cp _ _ _ Hcp), (IH _ Hs). done.
Qed.

Lemma encode_cp_nonempty (cp : N) (b : bytes) : encode_cp cp = Ok b → b ≠ [].
Proof.
  unfold encode_cp. repeat case_match; try done; by intros [= <-].
Qed.

(** A string is empty exactly when its encoding is. *)
Lemma encode_utf8_nil_iff (s : str) (bs : bytes) :
  encode_utf8 s = Ok bs → (bs = [] ↔ s = []).
Proof.
  destruct s as [|cp s].
  - by intros [= <-].
  - intros (b & bs' & Hcp%encode_cp_nonempty & _ & ->)%encode_utf8_cons_Ok.
    split; [|done]. by intros [? _]%app_eq_nil.
Qed.

(** *** Records *)

#[local] Arguments le_encode : simpl never.
#[local] Arguments len : simpl never.

Lemma length_header (a b c : Z) :
  length (le_encode 4 a ++ le_encode 4 b ++ le_encode 4 c) = 12%nat.
Proof. by rewrite !length_app, !length_le_encode. Qed.

Lemma encode_header_Ok (ts ks vs : Z) (h : bytes) :
  encode_header ts ks vs = Ok h ↔
  (0 ≤ ts < 4294967296 ∧ 0 ≤ ks < 4294967296 ∧ 0 ≤ vs < 4294967296) ∧
  h = le_encode 4 ts ++ le_encode 4 ks ++ le_encode 4 vs.
Proof. apply pack_III_Ok. Qed.

Lemma record_bytes_header (ts : Z) (kb vb : bytes) :
  record_bytes ts kb vb =
  (le_encode 4 ts ++ le_encode 4 (len kb) ++ le_encode 4 (len vb)) ++ kb ++ vb.
Proof. unfold record_bytes. by rewrite <- !app_assoc. Qed.

Lemma len_record_bytes (ts : Z) (kb vb : bytes) :
  len (record_bytes ts kb vb) = 12 + len kb + len vb.
Proof.
  rewrite record_bytes_header. unfold len.
  rewrite length_app, length_header, length_app. lia.
Qed.

(** What [encode_kv] returns, when it returns. *)
Lemma encode_kv_Ok (ts : Z) (key value : str) (sz : Z) (datum : bytes) :
  encode_kv ts key value = Ok (sz, datum) ↔
  ∃ kb vb, encode_utf8 key = Ok kb ∧ encode_utf8 value = Ok vb ∧
    0 ≤ ts < 4294967296 ∧ len kb < 4294967296 ∧ len vb < 4294967296 ∧
    sz = len kb + len vb ∧ datum = record_bytes ts kb vb.
Proof.
  unfold encode_kv. split.
  - destruct (encode_utf8 key) as [kb|]; [|done].
    destruct (encode_utf8 value) as [vb|]; [|done]. cbn.
    destruct (encode_header ts (len kb) (len vb)) as [h|] eqn:Eh; [|done].
    apply encode_header_Ok in Eh as [(?&?&?) ->]. cbn.
    rewrite <- record_bytes_header, len_record_bytes. intros Heq.
    assert (12 + len kb + len vb - 12 = sz ∧ record_bytes ts kb vb = datum)
      as [<- <-] by (split; congruence).
    exists kb, vb. repeat split; try done; lia.
  - intros (kb & vb & -> & -> & ? & ? & ? & -> & ->). cbn.
    assert (encode_header ts (len kb) (len vb)
            = Ok (le_encode 4 ts ++ le_encode 4 (len kb) ++ le_encode 4 (len vb)))
      as -> by (apply encode_header_Ok; unfold len; repeat split; try done; lia).
    cbn. rewrite <- record_bytes_header, len_record_bytes.
    do 2 f_equal. lia.
Qed.

Lemma unpack_ss_app (kb vb : bytes) :
  unpack_ss (len kb) (len vb) (kb ++ vb) = Ok (kb, vb).
Proof.
  unfold unpack_ss, len. rewrite length_app, Nat2Z.inj_add, Z.eqb_refl.
  rewrite Nat2Z.id, take_app_length, drop_app_length. done.
Qed.

(** Decoding a record laid out as [record_bytes] decodes its two fields. *)
Lemma decode_kv_record_bytes (ts : Z) (kb vb : bytes) :
  0 ≤ ts < 4294967296 → len kb < 4294967296 → len vb < 4294967296 →
  decode_kv (record_bytes ts kb vb) =
  (k ← decode_utf8 kb; v ← decode_utf8 vb; Ok (ts, k, v)).
Proof.
  intros Hts Hk Hv. unfold decode_kv. rewrite record_bytes_header.
  rewrite take_app_length', drop_app_length' by (by rewrite length_header).
  rewrite unpack_III_le_encode by (unfold len in *; lia). cbn.
  rewrite unpack_ss_app. done.
Qed.

(** The round trip, whenever [encode_kv] returns. *)
Lemma decode_encode_kv (ts : Z) (key value : str) (sz : Z) (datum : bytes) :
  encode_kv ts key value = Ok (sz, datum) → decode_kv datum = Ok (ts, key, value).
Proof.
  intros (kb & vb & Hk & Hv & ? & ? & ? & _ & ->)%encode_kv_Ok.
  rewrite decode_kv_record_bytes by done.
  by rewrite (decode_encode_utf8 _ _ Hk), (decode_encode_utf8 _ _ Hv).
Qed.

Lemma unpack_III_Ok (data : bytes) (r : Z * Z * Z) :
  unpack_III data = Ok r → len data = 12.
Proof. unfold unpack_III. destruct (Z.eqb_spec (len data) 12); done. Qed.

Lemma unpack_III_wrong_length (data : bytes) :
  len data ≠ 12 → unpack_III data = Raise StructError.
Proof. unfold unpack_III. destruct (Z.eqb_spec (len data) 12); done. Qed.

Lemma unpack_III_range (data : bytes) (a b c : Z) :
  unpack_III data = Ok (a, b, c) → 0 ≤ a ∧ 0 ≤ b ∧ 0 ≤ c.
Proof.
  assert (∀ bs, 0 ≤ le_decode bs) as Hpos.
  { induction bs as [|x bs IH]; simpl; [done|].
    pose proof (byte_val_range x). lia. }
  unfold unpack_III. destruct (len data =? 12); [|done].
  intros [= <- <- <-]. auto.
Qed.

Lemma len_take_12 (data : bytes) : len (take 12 data) = 12 ↔ 12 ≤ len data.
Proof. unfold len. rewrite length_take. lia. Qed.

Lemma len_drop_12 (data : bytes) : 12 ≤ len data → len (drop 12 data) = len data - 12.
Proof. unfold len. rewrite length_drop. lia. Qed.

(** [decode_kv] on a buffer whose length is not the one its header
    declares. *)
Lemma decode_kv_wrong_length (data : bytes) (ts ks vs : Z) :
  decode_header (take 12 data) = Ok (ts, ks, vs) →
  len data ≠ 12 + ks + vs →
  decode_kv data = Raise StructError.
Proof.
  unfold decode_header, decode_kv. intros Hh Hlen. rewrite Hh. cbn.
  apply unpack_III_Ok, len_take_12, len_drop_12 in Hh.
  unfold unpack_ss. destruct (Z.eqb_spec (len (drop 12 data)) (ks + vs)); [lia|done].
Qed.

Lemma decode_kv_short (data : bytes) :
  len data < 12 → decode_kv data = Raise StructError.
Proof.
  intros Hlen. unfold decode_kv.
  rewrite unpack_III_wrong_length; [done|].
  rewrite len_take_12. lia.
Qed.

(** What [decode_kv] was given, when it returns. *)
Lemma decode_kv_Ok (data : bytes) (ts : Z) (k v : str) :
  decode_kv data = Ok (ts, k, v) →
  ∃ ks vs, decode_header (take 12 data) = Ok (ts, ks, vs) ∧
    len data = 12 + ks + vs ∧
    decode_utf8 (take (Z.to_nat ks) (drop 12 data)) = Ok k ∧
    decode_utf8 (drop (Z.to_nat ks) (drop 12 data)) = Ok v.
Proof.
  unfold decode_kv, decode_header.
  destruct (unpack_III (take 12 data)) as [[[ts' ks] vs]|] eqn:Eh; [|done]. cbn.
  pose proof (unpack_III_Ok _ _ Eh) as H12%len_take_12%len_drop_12.
  unfold unpack_ss.
  destruct (Z.eqb_spec (len (drop 12 data)) (ks + vs)) as [Hl|]; [|done]. cbn.
  destruct (decode_utf8 (take _ _)) as [k'|] eqn:Ek; [|done]. cbn.
  destruct (decode_utf8 (drop _ _)) as [v'|] eqn:Ev; [|done]. cbn.
  intros [= -> -> ->]. exists ks, vs. repeat split; try done. lia.
Qed.

Lemma pack_I_Raise (x : Z) (e : exn) : pack_I x = Raise e → e = StructError.
Proof. unfold pack_I. destruct (_ && _); congruence. Qed.

(** A key or value whose encoding does not fit the 32-bit size field. *)
Lemma encode_kv_too_long (ts : Z) (key value : str) (kb vb : bytes) :
  encode_utf8 key = Ok kb → encode_utf8 value = Ok vb →
  4294967296 ≤ len kb ∨ 4294967296 ≤ len vb →
  encode_kv ts key value = Raise StructError.
Proof.
  intros Hk Hv Hlong. unfold encode_kv. rewrite Hk, Hv.
  cbn [mbind result_bind]. unfold encode_header, pack_III.
  destruct (pack_I ts) as [x|e] eqn:Hts; cbn [mbind result_bind].
  - destruct (pack_I (len kb)) as [y|e] eqn:Hy; cbn [mbind result_bind].
    + apply pack_I_Ok in Hy as [? _].
      rewrite pack_I_out_of_range by lia. done.
    + by apply pack_I_Raise in Hy as ->.
  - by apply pack_I_Raise in Hts as ->.
Qed.

Lemma encode_utf8_replicate_a (n : nat) :
  encode_utf8 (replicate n 97%N) = Ok (replicate n "a"%byte).
Proof.
  induction n as [|n IH]; [done|].
  cbn [replicate encode_utf8]. rewrite IH. done.
Qed.

(** *** Decoding, one code point at a time *)

Import Utf8.

Lemma decode_utf8_step (bs : bytes) :
  bs ≠ [] →
  decode_utf8 bs =
  match decode_cp bs with
  | Some (cp, rest) => s ← decode_utf8 rest; Ok (cp :: s)
  | None => Raise UnicodeDecodeError
  end.
Proof.
  destruct bs as [|b0 r0]; [done|]. intros _.
  cbn [decode_utf8 decode_cp]. cbv zeta.
  repeat (case_match; try done).
Qed.

Lemma byte_of_N_to_N (b : byte) : byte_of_N (Byte.to_N b) = b.
Proof. unfold byte_of_N. by rewrite Byte.of_to_N. Qed.

Lemma to_N_lt_256 (b : byte) : (Byte.to_N b < 256)%N.
Proof. pose proof (Byte.to_N_bounded b). lia. Qed.

Lemma continuation_Some (b : byte) (c : N) :
  continuation b = Some c → (c < 64 ∧ Byte.to_N b = 0x80 + c)%N.
Proof.
  unfold continuation.
  destruct (N.leb_spec 0x80 (Byte.to_N b)), (N.ltb_spec (Byte.to_N b) 0xC0);
    cbn [andb]; try done.
  intros [= <-]. lia.
Qed.

Local Open Scope N_scope.

(** A code point [decode_cp] reads is one [encode_cp] writes back as the
    bytes that were read. *)
Lemma decode_cp_Some (bs rest : bytes) (cp : N) :
  decode_cp bs = Some (cp, rest) →
  ∃ b, encode_cp cp = Ok b ∧ bs = b ++ rest ∧ b ≠ [].
Proof.
  destruct bs as [|b0 r0]; [done|]. cbn [decode_cp]. cbv zeta.
  pose proof (to_N_lt_256 b0) as Hb0.
  destruct (N.ltb_spec (Byte.to_N b0) 0x80) as [H1|H1].
  { intros [= <- <-]. exists [b0]. unfold encode_cp.
    rewrite (proj2 (N.ltb_lt _ _) H1), byte_of_N_to_N. done. }
  destruct (N.ltb_spec (Byte.to_N b0) 0xC0) as [H2|H2]; [done|].
  destruct (N.ltb_spec (Byte.to_N b0) 0xE0) as [H3|H3].
  { destruct r0 as [|b1 r1]; [done|].
    destruct (continuation b1) as [c1|] eqn:Hc1; [|done].
    apply continuation_Some in Hc1 as [Hc1 Hn1].
    destruct (N.ltb_spec ((Byte.to_N b0 - 0xC0) * 64 + c1) 0x80) as [|H4]; [done|].
    intros [= <- <-]. exists [b0; b1]. unfold encode_cp.
    rewrite (proj2 (N.ltb_ge _ 0x80)) by done.
    rewrite (proj2 (N.ltb_lt _ 0x800)) by lia.
    replace (0xC0 + ((Byte.to_N b0 - 0xC0) * 64 + c1) / 64) with (Byte.to_N b0)
      by div_lia.
    replace (0x80 + ((Byte.to_N b0 - 0xC0) * 64 + c1) mod 64) with (Byte.to_N b1)
      by div_lia.
    by rewrite !byte_of_N_to_N. }
  destruct (N.ltb_spec (Byte.to_N b0) 0xF0) as [H4|H4].
  { destruct r0 as [|b1 [|b2 r2]]; [done|done|].
    destruct (continuation b1) as [c1|] eqn:Hc1; [|done].
    destruct (continuation b2) as [c2|] eqn:Hc2; [|done].
    apply continuation_Some in Hc1 as [Hc1 Hn1].
    apply continuation_Some in Hc2 as [Hc2 Hn2].
    set (cp' := (Byte.to_N b0 - 0xE0) * 4096 + c1 * 64 + c2).
    destruct (N.ltb_spec cp' 0x800) as [|H5]; [done|].
    destruct (is_surrogate cp') eqn:Hsur; [done|]. cbn [orb].
    intros [= <- <-]. exists [b0; b1; b2]. unfold encode_cp. rewrite Hsur.
    rewrite (proj2 (N.ltb_ge _ 0x80)) by lia.
    rewrite (proj2 (N.ltb_ge _ 0x800)) by done.
    rewrite (proj2 (N.ltb_lt _ 0x10000)) by (subst cp'; lia).
    replace (0xE0 + cp' / 4096) with (Byte.to_N b0) by (subst cp'; div_lia).
    replace (0x80 + (cp' / 64) mod 64) with (Byte.to_N b1) by (subst cp'; div_lia).
    replace (0x80 + cp' mod 64) with (Byte.to_N b2) by (subst cp'; div_lia).
    by rewrite !byte_of_N_to_N. }
  destruct (N.ltb_spec (Byte.to_N b0) 0xF8) as [H5|H5]; [|done].
  destruct r0 as [|b1 [|b2 [|b3 r3]]]; [done|done|done|].
  destruct (continuation b1) as [c1|] eqn:Hc1; [|done].
  destruct (continuation b2) as [c2|] eqn:Hc2; [|done].
  destruct (continuation b3) as [c3|] eqn:Hc3; [|done].
  apply continuation_Some in Hc1 as [Hc1 Hn1].
  apply continuation_Some in Hc2 as [Hc2 Hn2].
  apply continuation_Some in Hc3 as [Hc3 Hn3].
  set (cp' := (Byte.to_N b0 - 0xF0) * 262144 + c1 * 4096 + c2 * 64 + c3).
  destruct (N.ltb_spec cp' 0x10000) as [|H6]; [done|].
  destruct (N.leb_spec 0x110000 cp') as [|H7]; [done|]. cbn [orb].
  intros [= <- <-]. exists [b0; b1; b2; b3]. unfold encode_cp.
  rewrite (proj2 (N.ltb_ge _ 0x80)) by lia.
  rewrite (proj2 (N.ltb_ge _ 0x800)) by lia.
  rewrite (proj2 (N.ltb_ge _ 0x10000)) by done.
  rewrite (proj2 (N.ltb_lt _ 0x110000)) by done.
  replace (0xF0 + cp' / 262144) with (Byte.to_N b0) by (subst cp'; div_lia).
  replace (0x80 + (cp' / 4096) mod 64) with (Byte.to_N b1) by (subst cp'; div_lia).
  replace (0x80 + (cp' / 64) mod 64) with (Byte.to_N b2) by (subst cp'; div_lia).
  replace (0x80 + cp' mod 64) with (Byte.to_N b3) by (subst cp'; div_lia).
  by rewrite !byte_of_N_to_N.
Qed.

Local Close Scope N_scope.

(** [decode_utf8] raises nothing but [UnicodeDecodeError]. *)
Lemma decode_utf8_Raise (bs : bytes) (e : exn) :
  decode_utf8 bs = Raise e → e = UnicodeDecodeError.
Proof.
  remember (length bs) as n eqn:Hn. revert bs Hn.
  induction n as [n IH] using lt_wf_ind. intros bs Hn.
  destruct (decide (bs = [])) as [->|Hne]; [done|].
  rewrite (decode_utf8_step _ Hne).
  destruct (decode_cp bs) as [[cp rest]|] eqn:Hcp; [|by intros [= <-]].
  apply decode_cp_Some in Hcp as (b & _ & -> & Hb).
  destruct (decode_utf8 rest) as [s|e'] eqn:Hrest; [done|].
  cbn [mbind result_bind]. intros [= <-].
  apply (IH (length rest)) with (bs := rest); [|done|done].
  subst n. rewrite length_app. destruct b; [done|]. simpl. lia.
Qed.

(** What [decode_utf8] accepts is what [encode_utf8] produces. *)
Lemma encode_decode_utf8 (bs : bytes) (s : str) :
  decode_utf8 bs = Ok s → encode_utf8 s = Ok bs.
Proof.
  remember (length bs) as n eqn:Hn. revert bs s Hn.
  induction n as [n IH] using lt_wf_ind. intros bs s Hn.
  destruct (decide (bs = [])) as [->|Hne]; [by intros [= <-]|].
  rewrite (decode_utf8_step _ Hne).
  destruct (decode_cp bs) as [[cp rest]|] eqn:Hcp; [|done].
  apply decode_cp_Some in Hcp as (b & Hb & -> & Hbne).
  destruct (decode_utf8 rest) as [s'|e'] eqn:Hrest; [|done].
  cbn [mbind result_bind]. intros [= <-].
  cbn [encode_utf8]. rewrite Hb. cbn [mbind result_bind].
  rewrite (IH (length rest)) with (bs := rest); [done| |done|done].
  subst n. rewrite length_app. destruct b; [done|]. simpl. lia.
Qed.

Lemma encode_cp_Raise (cp : N) (e : exn) :
  encode_cp cp = Raise e → e = UnicodeEncodeError.
Proof. unfold encode_cp. repeat case_match; congruence. Qed.

(** [encode_utf8] raises nothing but [UnicodeEncodeError]. *)
Lemma encode_utf8_Raise (s : str) (e : exn) :
  encode_utf8 s = Raise e → e = UnicodeEncodeError.
Proof.
  induction s as [|cp s IH]; [done|]. cbn [encode_utf8].
  destruct (encode_cp cp) as [b|e'] eqn:Hcp; cbn [mbind result_bind].
  - destruct (encode_utf8 s) as [bs|e'] eqn:Hs; cbn [mbind result_bind]; [done|].
    intros [= <-]. by apply IH.
  - intros [= <-]. by apply encode_cp_Raise in Hcp.
Qed.

(** *** Little-endian fields, the other way round *)

Lemma le_decode_range (bs : bytes) : 0 ≤ le_decode bs < 256 ^ Z.of_nat (length bs).
Proof.
  induction bs as [|b bs IH].
  - simpl. lia.
  - cbn [le_decode length]. pose proof (byte_val_range b).
    rewrite Nat2Z.inj_succ, Z.pow_succ_r by lia. lia.
Qed.

Lemma byte_of_Z_byte_val (b : byte) : byte_of_Z (byte_val b) = b.
Proof. unfold byte_of_Z, byte_val. by rewrite N2Z.id, byte_of_N_to_N. Qed.

Lemma le_encode_S (n : nat) (x : Z) :
  le_encode (S n) x = byte_of_Z (x mod 256) :: le_encode n (x / 256).
Proof. done. Qed.

Lemma le_encode_decode (bs : bytes) : le_encode (length bs) (le_decode bs) = bs.
Proof.
  induction bs as [|b bs IH]; [done|].
  cbn [le_decode length]. rewrite le_encode_S. pose proof (byte_val_range b).
  replace ((byte_val b + 256 * le_decode bs) mod 256) with (byte_val b)
    by (zify; Z.to_euclidean_division_equations; lia).
  replace ((byte_val b + 256 * le_decode bs) / 256) with (le_decode bs)
    by (zify; Z.to_euclidean_division_equations; lia).
  by rewrite byte_of_Z_byte_val, IH.
Qed.

Lemma le_encode_decode_4 (bs : bytes) :
  length bs = 4%nat → le_encode 4 (le_decode bs) = bs.
Proof. intros H. rewrite <- H. apply le_encode_decode. Qed.

(** What [unpack("<III")] returns, and from which bytes. *)
Lemma unpack_III_inv (data : bytes) (a b c : Z) :
  unpack_III data = Ok (a, b, c) →
  (0 ≤ a < 4294967296 ∧ 0 ≤ b < 4294967296 ∧ 0 ≤ c < 4294967296) ∧
  data = le_encode 4 a ++ le_encode 4 b ++ le_encode 4 c.
Proof.
  intros Hu. pose proof (unpack_III_Ok _ _ Hu) as Hlen. unfold len in Hlen.
  unfold unpack_III in Hu. destruct (len data =? 12); [|done].
  assert (length (take 4 data) = 4%nat) as H1 by (rewrite length_take; lia).
  assert (length (take 4 (drop 4 data)) = 4%nat) as H2
    by (rewrite length_take, length_drop; lia).
  assert (length (take 4 (drop 8 data)) = 4%nat) as H3
    by (rewrite length_take, length_drop; lia).
  pose proof (le_decode_range (take 4 data)) as R1.
  pose proof (le_decode_range (take 4 (drop 4 data))) as R2.
  pose proof (le_decode_range (take 4 (drop 8 data))) as R3.
  rewrite H1 in R1. rewrite H2 in R2. rewrite H3 in R3.
  change (256 ^ Z.of_nat 4) with 4294967296 in *.
  assert (a = le_decode (take 4 data) ∧ b = le_decode (take 4 (drop 4 data)) ∧
          c = le_decode (take 4 (drop 8 data))) as (-> & -> & ->)
    by (repeat split; congruence).
  split; [done|].
  rewrite !le_encode_decode_4 by done.
  rewrite <- (take_drop 4 data) at 1. f_equal.
  rewrite <- (take_drop 4 (drop 4 data)) at 1. f_equal.
  rewrite drop_drop. change (4 + 4)%nat with 8%nat.
  rewrite take_ge; [done|]. rewrite length_drop. lia.
Qed.

(** What [decode_kv] accepts is what [encode_kv] produces. *)
Lemma encode_decode_kv (data : bytes) (ts : Z) (k v : str) :
  decode_kv data = Ok (ts, k, v) → encode_kv ts k v = Ok (len data - 12, data).
Proof.
  intros (ks & vs & Hh & Hlen & Hk & Hv)%decode_kv_Ok.
  pose proof (unpack_III_Ok _ _ Hh) as H12%len_take_12.
  apply unpack_III_inv in Hh as [(Hts & Hks & Hvs) Hhead].
  apply encode_decode_utf8 in Hk, Hv.
  pose proof (len_drop_12 _ H12) as Hd.
  set (kb := take (Z.to_nat ks) (drop 12 data)) in *.
  set (vb := drop (Z.to_nat ks) (drop 12 data)) in *.
  assert (len kb = ks) as Hkl
    by (subst kb; unfold len in *; rewrite length_take; lia).
  assert (len vb = vs) as Hvl
    by (subst vb; unfold len in *; rewrite length_drop; lia).
  apply encode_kv_Ok. exists kb, vb.
  repeat split; try done; try lia.
  rewrite record_bytes_header, Hkl, Hvl, <- Hhead.
  subst kb vb. by rewrite take_drop, take_drop.
Qed.

End FormatFacts.

Module StoreFacts.
Import Format DiskStore Log Calls FormatFacts.

#[local] Arguments len : simpl never.
#[local] Arguments le_encode : simpl never.
#[local] Arguments record_bytes : simpl never.

(** Unfold the monadic plumbing of a method. *)
Ltac run :=
  unfold set, get, close, __getitem__, __setitem__, next_timestamp,
    key_dir_setitem, open_ab, open_rb_plus, open_rb, write_ab, lift,
    get_self, put_self, mbind, mret, M_bind, M_ret; simpl.

(** *** [set] *)

Lemma set_Raise (key value : str) (w : world) (e : exn) :
  encode_kv (timestamp (self w) + 1) key value = Raise e →
  set key value w =
  (Raise e, World (disk w) (with_timestamp (timestamp (self w) + 1) (self w))).
Proof. intros He. run. rewrite He. done. Qed.

Lemma set_Ok (key value : str) (w : world) (sz : Z) (datum : bytes) :
  encode_kv (timestamp (self w) + 1) key value = Ok (sz, datum) →
  set key value w =
  (Ok tt,
   World (<[file_name (self w) := default [] (disk w !! file_name (self w)) ++ datum]>
            (disk w))
         {| timestamp := timestamp (self w) + 1;
            file_name := file_name (self w);
            key_dir := <[key := (file_name (self w), sz + 12,
                                  len (default [] (disk w !! file_name (self w))),
                                  timestamp (self w) + 1)]> (key_dir (self w)) |}).
Proof.
  intros He. run. rewrite He. simpl.
  rewrite lookup_insert_eq, insert_insert_eq. done.
Qed.

(** *** [get] *)

Lemma get_absent (key : str) (w : world) :
  key_dir (self w) !! key = None → get key w = (Ok [], w).
Proof. intros Hk. run. rewrite Hk. done. Qed.

(** [get] on a key of the directory, as one expression; the world is the
    one it started from. *)
Lemma get_present (key : str) (w : world) (name : string) (sz pos ts : Z) :
  key_dir (self w) !! key = Some (name, sz, pos, ts) →
  get key w =
  (assert (bool_decide (name = file_name (self w)));;
   match disk w !! name with
   | None => Raise FileNotFoundError
   | Some data =>
     datum ← read_at data pos sz;
     '(stored_timestamp, stored_key, stored_value) ← decode_kv datum;
     assert (bool_decide (key = stored_key));;
     assert (bool_decide (ts = stored_timestamp));;
     Ok stored_value
   end, w).
Proof.
  intros Hk. run. rewrite Hk. unfold read_at, mbind, result_bind.
  destruct (bool_decide (name = file_name (self w))); simpl; [|done].
  destruct (disk w !! name) as [data|]; simpl; [|done].
  destruct (seek pos (File data 0)) as [f|]; simpl; [|done].
  destruct (read sz f) as [[datum f']|]; simpl; [|done].
  destruct (decode_kv datum) as [[[st sk] sv]|]; simpl; [|done].
  destruct (bool_decide (key = sk)); simpl; [|done].
  destruct (bool_decide (ts = st)); simpl; done.
Qed.

Lemma get_frame (key : str) (w : world) : snd (get key w) = w.
Proof.
  destruct (key_dir (self w) !! key) as [[[[name sz] pos] ts]|] eqn:Hk.
  - by rewrite (get_present _ _ _ _ _ _ Hk).
  - by rewrite (get_absent _ _ Hk).
Qed.

(** [get] looks at the files, the directory and the file name only. *)
Lemma get_same_directory (key : str) (d : gmap string bytes) (s1 s2 : DiskStorage) :
  key_dir s1 = key_dir s2 → file_name s1 = file_name s2 →
  fst (get key (World d s1)) = fst (get key (World d s2)).
Proof.
  intros Hkd Hfn.
  destruct (key_dir s1 !! key) as [[[[name sz] pos] ts]|] eqn:Hk.
  - rewrite (get_present key (World d s1) name sz pos ts) by done.
    rewrite (get_present key (World d s2) name sz pos ts)
      by (simpl; by rewrite <- Hkd).
    simpl. by rewrite Hfn.
  - rewrite (get_absent key (World d s1)) by done.
    rewrite (get_absent key (World d s2)) by (simpl; by rewrite <- Hkd).
    done.
Qed.

(** Reading inside the file. *)
Lemma read_at_inside (data : bytes) (pos n : Z) :
  0 ≤ pos → 0 ≤ n →
  read_at data pos n = Ok (take (Z.to_nat n) (drop (Z.to_nat pos) data)).
Proof.
  intros Hpos Hn. unfold read_at, seek, read.
  destruct (Z.ltb_spec pos 0); [lia|]. simpl.
  destruct (Z.ltb_spec n (-1)); [lia|].
  destruct (Z.eqb_spec n (-1)); [lia|]. done.
Qed.

Lemma read_at_end (pre datum : bytes) :
  read_at (pre ++ datum) (len pre) (len datum) = Ok datum.
Proof.
  unfold len. rewrite read_at_inside by lia.
  rewrite !Nat2Z.id, drop_app_length, take_ge by lia. done.
Qed.

(** Reading back the record [set] has just written. *)
Lemma get_after_set (key value : str) (w w' : world) :
  set key value w = (Ok tt, w') → get key w' = (Ok value, w').
Proof.
  destruct (encode_kv (timestamp (self w) + 1) key value) as [[sz datum]|e] eqn:He.
  2:{ rewrite (set_Raise _ _ _ _ He). done. }
  rewrite (set_Ok _ _ _ _ _ He). intros [= <-].
  erewrite get_present by (simpl; apply lookup_insert_eq). simpl.
  rewrite bool_decide_eq_true_2 by done. simpl.
  rewrite lookup_insert_eq.
  pose proof (decode_encode_kv _ _ _ _ _ He) as Hd.
  apply encode_kv_Ok in He as (kb & vb & _ & _ & _ & _ & _ & -> & ->).
  replace (len kb + len vb + 12) with (len (record_bytes (timestamp (self w) + 1) kb vb))
    by (rewrite len_record_bytes; lia).
  rewrite read_at_end. simpl. rewrite Hd. simpl.
  rewrite !bool_decide_eq_true_2 by done. done.
Qed.

(** *** The startup scan *)

(** End of file: the loop is left. *)
Lemma body_at_end (s : DiskStorage) (f : file) :
  drop (offset f) (contents f) = [] → key_dir_from_body s f = Ok None.
Proof.
  intros Hend. unfold key_dir_from_body, read. simpl.
  rewrite Hend. done.
Qed.

(** A turn that finds a 12-byte header, as one expression. *)
Lemma body_at_header (s : DiskStorage) (f : file) (ts ks vs : Z) :
  decode_header (take 12 (drop (offset f) (contents f))) = Ok (ts, ks, vs) →
  key_dir_from_body s f =
  (assert (0 <? ks);;
   assert (0 <? vs);;
   let key_bytes := take (Z.to_nat ks) (drop (offset f + 12) (contents f)) in
   assert (0 <? len key_bytes);;
   key ← decode_utf8 key_bytes;
   Ok (Some (with_key_dir
               (<[key := (file_name s, 12 + ks + vs, tell f, ts)]> (key_dir s)) s,
             File (contents f) (Z.to_nat (tell f + 12 + ks + vs))))).
Proof.
  intros Hh. pose proof (unpack_III_Ok _ _ Hh) as Hlen.
  pose proof (unpack_III_range _ _ _ _ Hh) as (_ & Hks & Hvs).
  unfold key_dir_from_body, read. simpl.
  change (Z.to_nat 12) with 12%nat.
  rewrite bool_decide_eq_false_2
    by (intros Hnil; rewrite Hnil in Hlen; discriminate).
  rewrite Hh. simpl.
  destruct (Z.ltb_spec 0 ks) as [Hk|Hk]; simpl; [|done].
  destruct (Z.ltb_spec 0 vs) as [Hv|Hv]; simpl; [|done].
  destruct (Z.ltb_spec ks (-1)); [lia|].
  destruct (Z.eqb_spec ks (-1)); [lia|]. simpl.
  assert (length (take 12 (drop (offset f) (contents f))) = 12%nat) as ->
    by (unfold len in Hlen; lia).
  destruct (0 <? len _); simpl; [|done].
  destruct (decode_utf8 _) as [key|]; simpl; [|done].
  unfold seek, tell. simpl.
  destruct (Z.ltb_spec (Z.of_nat (offset f) + 12 + ks + vs) 0); [lia|]. done.
Qed.

(** A turn that goes on found a header at a position inside the file and
    left the cursor further on. *)
Lemma body_Some_inv (s s' : DiskStorage) (f f' : file) :
  key_dir_from_body s f = Ok (Some (s', f')) →
  contents f' = contents f ∧
  (offset f < length (contents f))%nat ∧ (offset f < offset f')%nat.
Proof.
  intros Hb.
  destruct (drop (offset f) (contents f)) as [|b rest] eqn:Hrest.
  { rewrite body_at_end in Hb by done. done. }
  assert (offset f < length (contents f))%nat as Hin.
  { destruct (decide (offset f < length (contents f))%nat) as [|Hge]; [done|].
    rewrite drop_ge in Hrest by lia. done. }
  destruct (decode_header (take 12 (drop (offset f) (contents f))))
    as [[[ts ks] vs]|e] eqn:Hh.
  - rewrite (body_at_header _ _ _ _ _ Hh) in Hb. simpl in Hb.
    destruct (Z.ltb_spec 0 ks); simpl in Hb; [|done].
    destruct (Z.ltb_spec 0 vs); simpl in Hb; [|done].
    destruct (0 <? len _); simpl in Hb; [|done].
    destruct (decode_utf8 _); simpl in Hb; [|done].
    injection Hb as _ <-. simpl. unfold tell. repeat split; [done|lia].
  - unfold key_dir_from_body, read in Hb. simpl in Hb.
    change (Z.to_nat 12) with 12%nat in Hb.
    rewrite Hrest in Hb. rewrite Hrest in Hh.
    rewrite bool_decide_eq_false_2 in Hb by done.
    rewrite Hh in Hb. done.
Qed.

(** With fuel above the number of bytes left, the loop ends. *)
Lemma key_dir_loop_total (fuel : nat) (s : DiskStorage) (f : file) :
  (length (contents f) - offset f < fuel)%nat →
  ∃ r, key_dir_loop fuel s f = Some r.
Proof.
  revert s f. induction fuel as [|fuel IH]; intros s f Hfuel; [lia|].
  simpl. destruct (key_dir_from_body s f) as [[[s' f']|]|e] eqn:Hb; eauto.
  apply body_Some_inv in Hb as (Hc & ? & ?).
  apply IH. rewrite Hc. lia.
Qed.

(** More fuel does not change the outcome. *)
Lemma key_dir_loop_fuel (fuel fuel' : nat) (s : DiskStorage) (f : file) r :
  key_dir_loop fuel s f = Some r → (fuel ≤ fuel')%nat →
  key_dir_loop fuel' s f = Some r.
Proof.
  revert fuel' s f. induction fuel as [|fuel IH]; intros fuel' s f; [done|].
  destruct fuel' as [|fuel']; [lia|]. simpl.
  destruct (key_dir_from_body s f) as [[[s' f']|]|e]; try done.
  intros. apply (IH fuel'); [done|lia].
Qed.

(** [key_dir_from] always returns or raises. *)
Lemma key_dir_from_total (s : DiskStorage) (f : file) :
  ∃ r, key_dir_from s f = Some r.
Proof. apply key_dir_loop_total. lia. Qed.

Lemma init_total (d : gmap string bytes) (name : string) :
  ∃ r, init d name = Some r.
Proof.
  unfold init. destruct (d !! name); [apply key_dir_from_total|eauto].
Qed.

(** The outcome of the loop, from enough fuel, is the outcome of
    [key_dir_from] at any state the scan passes through. *)
Lemma key_dir_loop_enough (fuel : nat) (s : DiskStorage) (f : file) r :
  key_dir_loop fuel s f = Some r →
  ∀ fuel', (length (contents f) - offset f < fuel')%nat →
  key_dir_loop fuel' s f = Some r.
Proof.
  intros Hr fuel' Hfuel'.
  destruct (key_dir_loop_total fuel' s f Hfuel') as [r' Hr'].
  destruct (decide (fuel ≤ fuel')%nat).
  - rewrite (key_dir_loop_fuel _ _ _ _ _ Hr) by done. done.
  - rewrite (key_dir_loop_fuel _ fuel _ _ _ Hr') in Hr by lia. congruence.
Qed.

Lemma key_dir_loop_turn (fuel : nat) (s s' : DiskStorage) (f f' : file) :
  key_dir_from_body s f = Ok (Some (s', f')) →
  key_dir_loop (S fuel) s f = key_dir_loop fuel s' f'.
Proof. intros Hb. simpl. by rewrite Hb. Qed.

(** The scan from [(s0, f0)] ends as the scan from any state it reaches. *)
Lemma key_dir_from_reaches (s0 s : DiskStorage) (f0 f : file) :
  scan_reaches s0 f0 s f → key_dir_from s0 f0 = key_dir_from s f.
Proof.
  unfold scan_reaches. intros Hr.
  remember (s0, f0) as x eqn:Hx. remember (s, f) as y eqn:Hy.
  revert s0 f0 Hx. induction Hr as [x|x [s1 f1] z Hturn Hr IH]; intros s0 f0 Hx.
  - subst. by injection Hx as -> ->.
  - subst x. unfold scan_turn in Hturn. simpl in Hturn.
    rewrite <- (IH Hy s1 f1 eq_refl).
    pose proof (body_Some_inv _ _ _ _ Hturn) as (Hc & ? & ?).
    unfold key_dir_from at 1. rewrite (key_dir_loop_turn _ _ _ _ _ Hturn).
    destruct (key_dir_from_total s1 f1) as [r Hr1]. rewrite Hr1.
    apply (key_dir_loop_enough _ _ _ _ Hr1). rewrite Hc. lia.
Qed.

(** *** Scanning a log of whole records *)

Lemma len_app {A} (l1 l2 : list A) : len (l1 ++ l2) = len l1 + len l2.
Proof. unfold len. rewrite length_app. lia. Qed.

Lemma with_key_dir_id (s : DiskStorage) : with_key_dir (key_dir s) s = s.
Proof. by destruct s. Qed.

Lemma loadable_true (r : raw_record) :
  loadable r = true ↔
  0 ≤ r_timestamp r < 4294967296 ∧
  0 < len (r_key r) < 4294967296 ∧ 0 < len (r_value r) < 4294967296 ∧
  ∃ key, decode_utf8 (r_key r) = Ok key.
Proof.
  unfold loadable. rewrite !andb_true_iff.
  rewrite Z.leb_le, !Z.ltb_lt.
  destruct (decode_utf8 (r_key r)) as [key|e]; split.
  - intros; intuition eauto.
  - intros; intuition eauto.
  - intros [_ ?]; done.
  - intros (_ & _ & _ & key & ?). done.
Qed.

Lemma log_of_cons (r : raw_record) (rs : list raw_record) :
  log_of (r :: rs) = raw_bytes r ++ log_of rs.
Proof. done. Qed.

Lemma log_of_app (rs rs' : list raw_record) :
  log_of (rs ++ rs') = log_of rs ++ log_of rs'.
Proof. unfold log_of. by rewrite map_app, concat_app. Qed.

(** One turn of the scan over a whole loadable record. *)
Lemma body_at_record (s : DiskStorage) (pre rest : bytes) (r : raw_record) (key : str) :
  loadable r = true → decode_utf8 (r_key r) = Ok key →
  key_dir_from_body s (File (pre ++ raw_bytes r ++ rest) (length pre)) =
  Ok (Some (with_key_dir
              (<[key := (file_name s, len (raw_bytes r), len pre, r_timestamp r)]>
                 (key_dir s)) s,
            File (pre ++ raw_bytes r ++ rest) (length (pre ++ raw_bytes r)))).
Proof.
  intros (Hts & Hk & Hv & _)%loadable_true Hkey.
  set (f := File (pre ++ raw_bytes r ++ rest) (length pre)).
  assert (drop (offset f) (contents f) =
          (le_encode 4 (r_timestamp r) ++ le_encode 4 (len (r_key r))
             ++ le_encode 4 (len (r_value r)))
          ++ r_key r ++ r_value r ++ rest) as Hdrop.
  { subst f. cbn [offset contents]. rewrite drop_app_length. unfold raw_bytes.
    rewrite record_bytes_header. by rewrite <- !app_assoc. }
  rewrite (body_at_header s f (r_timestamp r) (len (r_key r)) (len (r_value r))).
  2:{ rewrite Hdrop, take_app_length' by (by rewrite length_header).
      apply unpack_III_le_encode; lia. }
  assert (take (Z.to_nat (len (r_key r))) (drop (offset f + 12) (contents f)) = r_key r)
    as Hkb.
  { rewrite <- drop_drop, Hdrop.
    rewrite drop_app_length' by (by rewrite length_header).
    unfold len. by rewrite Nat2Z.id, take_app_length. }
  cbv zeta. rewrite Hkb.
  rewrite (proj2 (Z.ltb_lt 0 (len (r_key r)))) by lia.
  rewrite (proj2 (Z.ltb_lt 0 (len (r_value r)))) by lia.
  rewrite Hkey. cbn [assert mbind result_bind].
  unfold raw_bytes. rewrite len_record_bytes.
  subst f. unfold tell. cbn [offset contents]. do 4 f_equal.
  rewrite length_app. fold (raw_bytes r).
  pose proof (len_record_bytes (r_timestamp r) (r_key r) (r_value r)) as Hl.
  unfold len in *. fold (raw_bytes r) in Hl. lia.
Qed.

(** The scan over a log of loadable records indexes each of them. *)
Lemma key_dir_loop_log (rs : list raw_record) :
  ∀ (pre : bytes) (s : DiskStorage) (fuel : nat),
  forallb loadable rs = true → (length rs < fuel)%nat →
  key_dir_loop fuel s (File (pre ++ log_of rs) (length pre)) =
  Some (Ok (with_key_dir (index_records (file_name s) (len pre) rs (key_dir s)) s)).
Proof.
  induction rs as [|r rs IH]; intros pre s fuel Hrs Hfuel.
  - destruct fuel as [|fuel]; [simpl in Hfuel; lia|].
    simpl. rewrite body_at_end.
    + by rewrite with_key_dir_id.
    + simpl. by rewrite app_nil_r, drop_all.
  - destruct fuel as [|fuel]; [simpl in Hfuel; lia|].
    simpl in Hrs. apply andb_true_iff in Hrs as [Hr Hrs].
    pose proof Hr as (_ & _ & _ & key & Hkey)%loadable_true.
    rewrite log_of_cons.
    rewrite (key_dir_loop_turn _ _ _ _ _ (body_at_record s pre _ r key Hr Hkey)).
    rewrite (app_assoc pre).
    rewrite IH by (simpl in Hfuel; done || lia).
    simpl. rewrite Hkey. rewrite len_app. done.
Qed.

Lemma key_dir_from_log (rs : list raw_record) (s : DiskStorage) :
  forallb loadable rs = true →
  key_dir_from s (File (log_of rs) 0) =
  Some (Ok (with_key_dir (index_records (file_name s) 0 rs (key_dir s)) s)).
Proof.
  intros Hrs.
  pose proof (key_dir_loop_log rs [] s (S (length rs)) Hrs (Nat.lt_succ_diag_r _))
    as Hloop.
  change ([] ++ log_of rs) with (log_of rs) in Hloop.
  change (len (@nil byte)) with 0 in Hloop.
  apply (key_dir_loop_enough _ _ _ _ Hloop). cbn [contents offset]. lia.
Qed.

(** Construction over a valid log. *)
Lemma init_log (d : gmap string bytes) (name : string) (rs : list raw_record) :
  d !! name = Some (log_of rs) → forallb loadable rs = true →
  init d name =
  Some (Ok {| timestamp := 0; file_name := name;
              key_dir := index_records name 0 rs ∅ |}).
Proof.
  intros Hd Hrs. unfold init. rewrite Hd.
  by rewrite key_dir_from_log.
Qed.

Lemma init_absent (d : gmap string bytes) (name : string) :
  d !! name = None → init d name = Some (Ok (fresh name)).
Proof. intros Hd. unfold init. by rewrite Hd. Qed.

Lemma index_records_app (name : string) (rs rs' : list raw_record) :
  ∀ (pos : Z) (kd : gmap str entry),
  forallb loadable rs = true →
  index_records name pos (rs ++ rs') kd =
  index_records name (pos + len (log_of rs)) rs' (index_records name pos rs kd).
Proof.
  induction rs as [|r rs IH]; intros pos kd Hrs.
  - simpl. f_equal. unfold len. simpl. lia.
  - simpl in Hrs. apply andb_true_iff in Hrs as [Hr Hrs].
    pose proof Hr as (_ & _ & _ & key & Hkey)%loadable_true.
    simpl. rewrite Hkey, IH by done.
    rewrite log_of_cons, len_app. f_equal. lia.
Qed.

(** *** Sequences of [set] *)

(** What a [set] that returns has done. *)
Lemma set_Ok_inv (key value : str) (w w' : world) :
  set key value w = (Ok tt, w') →
  let t := timestamp (self w) + 1 in
  let name := file_name (self w) in
  let data := default [] (disk w !! name) in
  ∃ kb vb, encode_utf8 key = Ok kb ∧ encode_utf8 value = Ok vb ∧
    0 ≤ t < 4294967296 ∧ len kb < 4294967296 ∧ len vb < 4294967296 ∧
    w' = World (<[name := data ++ record_bytes t kb vb]> (disk w))
           {| timestamp := t; file_name := name;
              key_dir := <[key := (name, len (record_bytes t kb vb), len data, t)]>
                           (key_dir (self w)) |}.
Proof.
  intros Hset t name data.
  destruct (encode_kv t key value) as [[sz datum]|e] eqn:He.
  2:{ rewrite (set_Raise _ _ _ _ He) in Hset. done. }
  rewrite (set_Ok _ _ _ _ _ He) in Hset.
  apply encode_kv_Ok in He as (kb & vb & Hk & Hv & ? & ? & ? & -> & ->).
  exists kb, vb. repeat split; try done; try lia.
  rewrite len_record_bytes.
  replace (12 + len kb + len vb) with (len kb + len vb + 12) by lia.
  subst t name data. congruence.
Qed.

(** A [set] of a non-empty key and value appends a loadable record. *)
Lemma set_appends_loadable (key value : str) (w w' : world) :
  set key value w = (Ok tt, w') → key ≠ [] → value ≠ [] →
  let name := file_name (self w) in
  let data := default [] (disk w !! name) in
  ∃ r, loadable r = true ∧ decode_utf8 (r_key r) = Ok key ∧
    r_timestamp r = timestamp (self w) + 1 ∧
    disk w' = <[name := data ++ raw_bytes r]> (disk w) ∧
    self w' = {| timestamp := timestamp (self w) + 1; file_name := name;
                 key_dir := <[key := (name, len (raw_bytes r), len data,
                                       r_timestamp r)]> (key_dir (self w)) |}.
Proof.
  intros (kb & vb & Hk & Hv & Ht & Hkl & Hvl & ->)%set_Ok_inv Hkey Hvalue name data.
  exists (RawRecord (timestamp (self w) + 1) kb vb).
  assert (kb ≠ []) as Hkb by (by rewrite (encode_utf8_nil_iff _ _ Hk)).
  assert (vb ≠ []) as Hvb by (by rewrite (encode_utf8_nil_iff _ _ Hv)).
  repeat split; try done.
  - apply loadable_true. cbn [r_timestamp r_key r_value].
    repeat split; try lia.
    + destruct kb; [done|]. unfold len. simpl. lia.
    + destruct vb; [done|]. unfold len. simpl. lia.
    + exists key. by apply decode_encode_utf8.
  - by apply decode_encode_utf8.
Qed.

Lemma run_sets_cons (k v : str) (kvs : list (str * str)) (w : world) :
  run_sets ((k, v) :: kvs) w =
  match set k v w with
  | (Ok _, w1) => run_sets kvs w1
  | (Raise e, w1) => (Raise e, w1)
  end.
Proof. done. Qed.

(** A run of [set]s of non-empty keys and values appends a log of loadable
    records, and leaves the directory that indexes them. *)
Lemma run_sets_log (kvs : list (str * str)) :
  ∀ w w', Forall (λ kv, kv.1 ≠ [] ∧ kv.2 ≠ []) kvs →
  run_sets kvs w = (Ok tt, w') →
  let name := file_name (self w) in
  let data := default [] (disk w !! name) in
  ∃ rs, forallb loadable rs = true ∧
    file_name (self w') = name ∧
    key_dir (self w') = index_records name (len data) rs (key_dir (self w)) ∧
    (disk w' !! name = Some (data ++ log_of rs) ∨
     kvs = [] ∧ disk w' = disk w ∧ rs = []).
Proof.
  induction kvs as [|[k v] kvs IH]; intros w w' Hne Hrun name data.
  - injection Hrun as <-. exists []. repeat split; try done. by right.
  - apply Forall_cons in Hne as [[Hk Hv] Hne]. simpl in Hk, Hv.
    rewrite run_sets_cons in Hrun.
    destruct (set k v w) as [[[]|e] w1] eqn:Hset; [|done].
    destruct (set_appends_loadable _ _ _ _ Hset Hk Hv)
      as (r & Hr & Hkey & Hts & Hdisk & Hself).
    destruct (IH w1 w' Hne Hrun) as (rs & Hrs & Hname & Hkd & Hd).
    rewrite Hself in Hname, Hkd, Hd. cbn [file_name key_dir] in Hname, Hkd, Hd.
    rewrite Hdisk, lookup_insert_eq in Hkd. rewrite Hdisk in Hd.
    rewrite lookup_insert_eq in Hd. cbn [default from_option id] in Hkd, Hd.
    fold name in Hkd, Hd, Hname. fold data in Hkd, Hd.
    exists (r :: rs). repeat split.
    + simpl. by rewrite Hr, Hrs.
    + done.
    + simpl. rewrite Hkey, Hkd, len_app. done.
    + left. rewrite log_of_cons.
      destruct Hd as [Hd|(-> & Hd & ->)].
      * by rewrite Hd, <- app_assoc.
      * rewrite Hd, lookup_insert_eq. unfold log_of. simpl.
        by rewrite !app_nil_r.
Qed.

(** *** The counter and the file name *)

Lemma set_counter (key value : str) (w : world) :
  timestamp (self (snd (set key value w))) = timestamp (self w) + 1 ∧
  file_name (self (snd (set key value w))) = file_name (self w).
Proof.
  destruct (encode_kv (timestamp (self w) + 1) key value) as [[sz datum]|e] eqn:He.
  - by rewrite (set_Ok _ _ _ _ _ He).
  - by rewrite (set_Raise _ _ _ _ He).
Qed.

Lemma after_sets_counter (kvs : list (str * str)) :
  ∀ w, timestamp (self (after_sets kvs w)) = timestamp (self w) + len kvs ∧
       file_name (self (after_sets kvs w)) = file_name (self w).
Proof.
  induction kvs as [|[k v] kvs IH]; intros w.
  - unfold len. simpl. split; [lia|done].
  - cbn [after_sets]. destruct (IH (snd (set k v w))) as [-> ->].
    destruct (set_counter k v w) as [-> ->].
    unfold len. simpl length. split; [lia|done].
Qed.

Lemma next_timestamp_eq (w : world) :
  next_timestamp w =
  (Ok (timestamp (self w) + 1),
   World (disk w) (with_timestamp (timestamp (self w) + 1) (self w))).
Proof. done. Qed.

Lemma body_Some_fields (s s' : DiskStorage) (f f' : file) :
  key_dir_from_body s f = Ok (Some (s', f')) →
  timestamp s' = timestamp s ∧ file_name s' = file_name s.
Proof.
  intros Hb.
  destruct (decode_header (take 12 (drop (offset f) (contents f))))
    as [[[ts ks] vs]|e] eqn:Hh.
  - rewrite (body_at_header _ _ _ _ _ Hh) in Hb. cbv zeta in Hb.
    destruct (0 <? ks); cbn [assert mbind result_bind] in Hb; [|done].
    destruct (0 <? vs); cbn [assert mbind result_bind] in Hb; [|done].
    destruct (0 <? len _); cbn [assert mbind result_bind] in Hb; [|done].
    destruct (decode_utf8 _) as [key|]; cbn [assert mbind result_bind] in Hb; [|done].
    assert (s' = with_key_dir
                   (<[key:=(file_name s, 12 + ks + vs, tell f, ts)]> (key_dir s)) s)
      as -> by congruence.
    done.
  - unfold key_dir_from_body, read in Hb. cbn [Z.ltb Z.eqb Z.compare] in Hb.
    cbn [mbind result_bind offset contents] in Hb.
    change (Z.to_nat 12) with 12%nat in Hb.
    destruct (bool_decide _); [done|]. rewrite Hh in Hb. done.
Qed.

Lemma key_dir_loop_fields (fuel : nat) :
  ∀ s f s', key_dir_loop fuel s f = Some (Ok s') →
  timestamp s' = timestamp s ∧ file_name s' = file_name s.
Proof.
  induction fuel as [|fuel IH]; intros s f s'; [done|].
  cbn [key_dir_loop].
  destruct (key_dir_from_body s f) as [[[s1 f1]|]|e] eqn:Hb; [| |done].
  - intros [-> ->]%IH. by apply body_Some_fields in Hb.
  - by intros [= <-].
Qed.

(** A new engine starts with counter 0, whatever the file holds. *)
Lemma init_fields (d : gmap string bytes) (name : string) (s : DiskStorage) :
  init d name = Some (Ok s) → timestamp s = 0 ∧ file_name s = name.
Proof.
  unfold init. destruct (d !! name) as [data|].
  - by intros [??]%key_dir_loop_fields.
  - by intros [= <-].
Qed.

Lemma scan_reaches_contents (s0 s : DiskStorage) (f0 f : file) :
  scan_reaches s0 f0 s f → contents f = contents f0.
Proof.
  unfold scan_reaches. intros Hr.
  remember (s0, f0) as x eqn:Hx. remember (s, f) as y eqn:Hy.
  revert s0 f0 Hx. induction Hr as [x|x [s1 f1] z Hturn Hr IH]; intros s0 f0 Hx.
  - subst. by injection Hx as -> ->.
  - subst x. unfold scan_turn in Hturn. cbn [fst snd] in Hturn.
    rewrite (IH Hy s1 f1 eq_refl).
    by apply body_Some_inv in Hturn as (-> & _).
Qed.

(** A turn that finds a record with an empty key or value, or no key byte
    after the header, fails its assertion. *)
Lemma body_at_bad_record (s : DiskStorage) (f : file) (ts ks vs : Z) :
  decode_header (take 12 (drop (offset f) (contents f))) = Ok (ts, ks, vs) →
  ks = 0 ∨ vs = 0 ∨ take (Z.to_nat ks) (drop (offset f + 12) (contents f)) = [] →
  key_dir_from_body s f = Raise AssertionError.
Proof.
  intros Hh Hbad. rewrite (body_at_header _ _ _ _ _ Hh). cbv zeta.
  destruct (Z.ltb_spec 0 ks); cbn [assert mbind result_bind]; [|done].
  destruct (Z.ltb_spec 0 vs); cbn [assert mbind result_bind]; [|done].
  destruct Hbad as [?|[?|Hnil]]; [lia|lia|].
  rewrite Hnil. done.
Qed.

(** *** Reading what was written *)

Lemma get_points_at (w : world) (key v : str) :
  points_at w key v → get key w = (Ok v, w).
Proof.
  intros (data & sz & pos & ts & Hk & Hd & Hpos & Hsz & _ & Hdec).
  rewrite (get_present _ _ _ _ _ _ Hk). rewrite Hd.
  rewrite bool_decide_eq_true_2 by done. cbn [assert mbind result_bind].
  rewrite read_at_inside by done. cbn [mbind result_bind]. rewrite Hdec.
  cbn [mbind result_bind]. rewrite !bool_decide_eq_true_2 by done. done.
Qed.

Lemma set_points_at (key v : str) (w w' : world) :
  set key v w = (Ok tt, w') → points_at w' key v.
Proof.
  intros (kb & vb & Hk & Hv & Ht & Hkl & Hvl & ->)%set_Ok_inv.
  set (t := timestamp (self w) + 1) in *.
  set (name := file_name (self w)).
  set (data := default [] (disk w !! name)).
  exists (data ++ record_bytes t kb vb), (len (record_bytes t kb vb)), (len data), t.
  cbn [self disk key_dir file_name].
  rewrite !lookup_insert_eq.
  repeat split; try done; try (rewrite ?len_app; unfold len; lia).
  - unfold len. rewrite !Nat2Z.id, drop_app_length, take_ge by lia.
    rewrite decode_kv_record_bytes by done.
    by rewrite (decode_encode_utf8 _ _ Hk), (decode_encode_utf8 _ _ Hv).
Qed.

Lemma set_preserves_points_at (k v key u : str) (w w' : world) :
  set k v w = (Ok tt, w') → k ≠ key → points_at w key u → points_at w' key u.
Proof.
  intros (kb & vb & _ & _ & _ & _ & _ & ->)%set_Ok_inv Hne.
  intros (data & sz & pos & ts & Hk & Hd & Hpos & Hsz & Hin & Hdec).
  rewrite Hd. cbn [default from_option id].
  exists (data ++ record_bytes (timestamp (self w) + 1) kb vb), sz, pos, ts.
  cbn [self disk key_dir file_name].
  rewrite lookup_insert_ne, lookup_insert_eq by done.
  repeat split; try done.
  - rewrite len_app. unfold len in *. lia.
  - unfold len in Hin.
    rewrite drop_app_le by lia.
    rewrite take_app_le by (rewrite length_drop; lia). done.
Qed.

Lemma last_write_cons (key k v : str) (kvs : list (str * str)) :
  last_write key ((k, v) :: kvs) =
  match last_write key kvs with
  | Some v' => Some v'
  | None => if bool_decide (k = key) then Some v else None
  end.
Proof. done. Qed.

Lemma run_sets_preserves_points_at (key u : str) (kvs : list (str * str)) :
  ∀ w w', run_sets kvs w = (Ok tt, w') → last_write key kvs = None →
  points_at w key u → points_at w' key u.
Proof.
  induction kvs as [|[k v] kvs IH]; intros w w' Hrun Hlast Hp.
  - by injection Hrun as <-.
  - rewrite run_sets_cons in Hrun. rewrite last_write_cons in Hlast.
    destruct (set k v w) as [[[]|e] w1] eqn:Hset; [|done].
    destruct (last_write key kvs) eqn:Hl; [done|].
    destruct (bool_decide_reflect (k = key)) as [|Hne]; [done|].
    apply (IH w1 w' Hrun eq_refl).
    by apply (set_preserves_points_at _ _ _ _ _ _ Hset Hne).
Qed.

(** After a run of [set]s, the directory points, for each key written, at
    the record of its last write. *)
Lemma run_sets_points_at (key v : str) (kvs : list (str * str)) :
  ∀ w w', run_sets kvs w = (Ok tt, w') → last_write key kvs = Some v →
  points_at w' key v.
Proof.
  induction kvs as [|[k v0] kvs IH]; intros w w' Hrun Hlast; [done|].
  rewrite run_sets_cons in Hrun. rewrite last_write_cons in Hlast.
  destruct (set k v0 w) as [[[]|e] w1] eqn:Hset; [|done].
  destruct (last_write key kvs) as [v'|] eqn:Hl.
  - injection Hlast as ->. by apply (IH w1 w' Hrun).
  - destruct (bool_decide_reflect (k = key)) as [->|Hne]; [|done].
    injection Hlast as ->.
    apply (run_sets_preserves_points_at _ _ _ _ _ Hrun Hl).
    by apply (set_points_at _ _ _ _ Hset).
Qed.

(** *** The directory and the file agree *)

Lemma entry_spans_app (name : string) (data more : bytes) (key : str) (e : entry)
    (vb : bytes) :
  entry_spans name data key e vb → entry_spans name (data ++ more) key e vb.
Proof.
  intros (ts & kb & pre & post & -> & -> & Hk & ? & ? & ?).
  exists ts, kb, pre, (post ++ more). repeat split; try done; try lia.
  by rewrite <- !app_assoc.
Qed.

Lemma read_at_record (pre rec post : bytes) :
  read_at (pre ++ rec ++ post) (len pre) (len rec) = Ok rec.
Proof.
  unfold len. rewrite read_at_inside by lia.
  by rewrite !Nat2Z.id, drop_app_length, take_app_length.
Qed.

(** [get] on an entry that spans a record decodes the value bytes of that
    record. *)
Lemma get_entry_spans (w : world) (key : str) (e : entry) (data vb : bytes) :
  key_dir (self w) !! key = Some e →
  disk w !! file_name (self w) = Some data →
  entry_spans (file_name (self w)) data key e vb →
  get key w = (v ← decode_utf8 vb; Ok v, w).
Proof.
  intros Hk Hd (ts & kb & pre & post & -> & -> & Hkey & ? & ? & ?).
  rewrite (get_present _ _ _ _ _ _ Hk), Hd.
  rewrite bool_decide_eq_true_2 by done. cbn [assert mbind result_bind].
  rewrite read_at_record. cbn [mbind result_bind].
  rewrite decode_kv_record_bytes by done. rewrite Hkey. cbn [mbind result_bind].
  destruct (decode_utf8 vb) as [v|]; cbn [mbind result_bind]; [|done].
  by rewrite !bool_decide_eq_true_2.
Qed.

Lemma index_records_sound (name : string) (rs : list raw_record) :
  ∀ (pre : bytes) (kd : gmap str entry) (key : str) (e : entry),
  forallb loadable rs = true →
  index_records name (len pre) rs kd !! key = Some e →
  kd !! key = Some e ∨
  ∃ vb, entry_spans name (pre ++ log_of rs) key e vb.
Proof.
  induction rs as [|r rs IH]; intros pre kd key e Hrs Hl; [by left|].
  cbn [forallb] in Hrs. apply andb_true_iff in Hrs as [Hr Hrs].
  pose proof Hr as (Hts & Hkl & Hvl & k & Hk)%loadable_true.
  cbn [index_records] in Hl. rewrite Hk in Hl.
  rewrite <- len_app in Hl.
  destruct (IH _ _ _ _ Hrs Hl) as [Hin|[vb Hspan]].
  - destruct (decide (k = key)) as [->|Hne].
    + rewrite lookup_insert_eq in Hin. injection Hin as <-.
      right. exists (r_value r), (r_timestamp r), (r_key r), pre, (log_of rs).
      repeat split; try done; lia.
    + rewrite lookup_insert_ne in Hin by done. by left.
  - right. exists vb. by rewrite log_of_cons, app_assoc.
Qed.

(** A new engine over a valid log, or over no file, has a sound
    directory. *)
Lemma init_dir_sound (d : gmap string bytes) (name : string) (s : DiskStorage) :
  d !! name = None ∨ (∃ data, d !! name = Some data ∧ valid_log data) →
  init d name = Some (Ok s) → dir_sound (World d s).
Proof.
  intros [Hnone|(data & Hsome & rs & Hrs & ->)] Hinit key e.
  - rewrite (init_absent _ _ Hnone) in Hinit. injection Hinit as <-. done.
  - rewrite (init_log _ _ _ Hsome Hrs) in Hinit. injection Hinit as <-.
    cbn [self key_dir file_name disk]. intros Hl.
    change 0 with (len (@nil byte)) in Hl.
    destruct (index_records_sound _ _ _ _ _ _ Hrs Hl) as [|[vb Hspan]]; [done|].
    by exists (log_of rs), vb.
Qed.

(** [set], returning or raising, keeps the directory sound. *)
Lemma set_dir_sound (key value : str) (w : world) :
  dir_sound w → dir_sound (snd (set key value w)).
Proof.
  intros Hsound.
  destruct (set key value w) as [[[]|e] w'] eqn:Hset; cbn [snd].
  - apply set_Ok_inv in Hset as (kb & vb & Hk & Hv & ? & ? & ? & ->).
    intros key' e'. cbn [self disk key_dir file_name].
    rewrite lookup_insert_eq.
    destruct (decide (key = key')) as [<-|Hne].
    + rewrite lookup_insert_eq. intros [= <-]. eexists _, vb. split; [done|].
      exists (timestamp (self w) + 1), kb,
        (default [] (disk w !! file_name (self w))), [].
      rewrite app_nil_r. repeat split; try done; try lia.
      by apply decode_encode_utf8.
    + rewrite lookup_insert_ne by done. intros Hl.
      destruct (Hsound _ _ Hl) as (data & vb' & Hd & Hspan).
      rewrite Hd. cbn [default from_option id].
      eexists _, vb'. split; [done|]. by apply entry_spans_app.
  - destruct (encode_kv (timestamp (self w) + 1) key value) as [[sz datum]|e'] eqn:He.
    + rewrite (set_Ok _ _ _ _ _ He) in Hset. done.
    + rewrite (set_Raise _ _ _ _ He) in Hset.
      assert (w' = World (disk w) (with_timestamp (timestamp (self w) + 1) (self w)))
        as -> by congruence.
      exact Hsound.
Qed.

Lemma after_sets_dir_sound (kvs : list (str * str)) :
  ∀ w, dir_sound w → dir_sound (after_sets kvs w).
Proof.
  induction kvs as [|[k v] kvs IH]; intros w Hw; [done|].
  cbn [after_sets]. by apply IH, set_dir_sound.
Qed.

(** *** Which record the scan keeps for a key *)

Lemma index_records_other_keys (name : string) (key : str) (rs : list raw_record) :
  ∀ (pos : Z) (kd : gmap str entry),
  Forall (λ r, ¬ has_key key r) rs →
  index_records name pos rs kd !! key = kd !! key.
Proof.
  induction rs as [|r rs IH]; intros pos kd Hrs; [done|].
  apply Forall_cons in Hrs as [Hr Hrs]. cbn [index_records].
  destruct (decode_utf8 (r_key r)) as [k|] eqn:Hk; [|done].
  rewrite IH by done. apply lookup_insert_ne. by intros ->.
Qed.

(** *** What [set] raises and changes *)

Lemma encode_kv_Raise (ts : Z) (key value : str) (e : exn) :
  encode_kv ts key value = Raise e → e = UnicodeEncodeError ∨ e = StructError.
Proof.
  unfold encode_kv.
  destruct (encode_utf8 key) as [kb|e1] eqn:Hk; cbn [mbind result_bind].
  2:{ intros [= <-]. left. by apply encode_utf8_Raise in Hk. }
  destruct (encode_utf8 value) as [vb|e1] eqn:Hv; cbn [mbind result_bind].
  2:{ intros [= <-]. left. by apply encode_utf8_Raise in Hv. }
  unfold encode_header, pack_III.
  destruct (pack_I ts) as [x|e1] eqn:H1; cbn [mbind result_bind].
  2:{ intros [= <-]. right. by apply pack_I_Raise in H1. }
  destruct (pack_I (len kb)) as [y|e1] eqn:H2; cbn [mbind result_bind].
  2:{ intros [= <-]. right. by apply pack_I_Raise in H2. }
  destruct (pack_I (len vb)) as [z|e1] eqn:H3; cbn [mbind result_bind]; [done|].
  intros [= <-]. right. by apply pack_I_Raise in H3.
Qed.

Lemma decode_kv_Raise (data : bytes) (e : exn) :
  decode_kv data = Raise e → e = StructError ∨ e = UnicodeDecodeError.
Proof.
  unfold decode_kv, unpack_III, unpack_ss.
  destruct (len (take 12 data) =? 12); cbn [mbind result_bind];
    [|intros [= <-]; by left].
  destruct (len (drop 12 data) =? _); cbn [mbind result_bind];
    [|intros [= <-]; by left].
  destruct (decode_utf8 (take _ _)) as [k|e1] eqn:Hk; cbn [mbind result_bind].
  2:{ intros [= <-]. right. by apply decode_utf8_Raise in Hk. }
  destruct (decode_utf8 (drop _ _)) as [v|e1] eqn:Hv; cbn [mbind result_bind];
    [done|].
  intros [= <-]. right. by apply decode_utf8_Raise in Hv.
Qed.

(** One [set] keeps what the file held and adds bytes after it. *)
Lemma set_extends_file (key value : str) (w : world) :
  ∃ tail, default [] (disk (snd (set key value w)) !! file_name (self w))
          = default [] (disk w !! file_name (self w)) ++ tail.
Proof.
  destruct (encode_kv (timestamp (self w) + 1) key value) as [[sz datum]|e] eqn:He.
  - rewrite (set_Ok _ _ _ _ _ He). cbn [snd disk]. exists datum.
    by rewrite lookup_insert_eq.
  - rewrite (set_Raise _ _ _ _ He). cbn [snd disk]. exists []. by rewrite app_nil_r.
Qed.

Lemma after_sets_extends_file (kvs : list (str * str)) :
  ∀ w, ∃ tail, default [] (disk (after_sets kvs w) !! file_name (self w))
               = default [] (disk w !! file_name (self w)) ++ tail.
Proof.
  induction kvs as [|[k v] kvs IH]; intros w.
  - exists []. by rewrite app_nil_r.
  - cbn [after_sets].
    destruct (IH (snd (set k v w))) as [tail2 H2].
    destruct (set_extends_file k v w) as [tail1 H1].
    destruct (set_counter k v w) as [_ Hn]. rewrite Hn in H2.
    exists (tail1 ++ tail2). by rewrite H2, H1, app_assoc.
Qed.

(** *** A log that ends inside a record *)

Lemma scan_reaches_log (rs : list raw_record) :
  ∀ (pre rest : bytes) (s : DiskStorage),
  forallb loadable rs = true →
  scan_reaches s (File (pre ++ log_of rs ++ rest) (length pre))
    (with_key_dir (index_records (file_name s) (len pre) rs (key_dir s)) s)
    (File (pre ++ log_of rs ++ rest) (length (pre ++ log_of rs))).
Proof.
  induction rs as [|r rs IH]; intros pre rest s Hrs.
  - cbn [index_records log_of map concat]. rewrite with_key_dir_id, app_nil_r.
    apply rtc_refl.
  - cbn [forallb] in Hrs. apply andb_true_iff in Hrs as [Hr Hrs].
    pose proof Hr as (_ & _ & _ & key & Hkey)%loadable_true.
    rewrite log_of_cons. cbn [index_records]. rewrite Hkey.
    eapply rtc_l.
    { unfold scan_turn. cbn [fst snd]. rewrite <- (app_assoc (raw_bytes r)).
      apply (body_at_record s pre (log_of rs ++ rest) r key Hr Hkey). }
    specialize (IH (pre ++ raw_bytes r) rest
                  (with_key_dir
                     (<[key := (file_name s, len (raw_bytes r), len pre, r_timestamp r)]>
                        (key_dir s)) s) Hrs).
    rewrite <- !app_assoc in IH. rewrite <- !app_assoc.
    rewrite len_app in IH. rewrite !app_assoc in IH. rewrite !app_assoc.
    exact IH.
Qed.

(** A turn of the scan that finds fewer than 12 bytes, but some. *)
Lemma body_short_header (s : DiskStorage) (f : file) (junk : bytes) :
  drop (offset f) (contents f) = junk → junk ≠ [] → len junk < 12 →
  key_dir_from_body s f = Raise StructError.
Proof.
  intros Hdrop Hne Hlen.
  unfold key_dir_from_body, read. cbn [Z.ltb Z.eqb Z.compare].
  cbn [mbind result_bind offset contents].
  change (Z.to_nat 12) with 12%nat. rewrite Hdrop.
  rewrite take_ge by (unfold len in Hlen; lia).
  rewrite bool_decide_eq_false_2 by done.
  unfold decode_header. rewrite unpack_III_wrong_length by lia. done.
Qed.


End StoreFacts.

(** * The properties of the specification *)

Import Format DiskStore Log Calls FormatFacts StoreFacts.

#[local] Arguments len : simpl never.
#[local] Arguments le_encode : simpl never.
#[local] Arguments record_bytes : simpl never.

(** C1 (amended): for every timestamp in [0, 2^32) and every key and value
    whose UTF-8 encodings are non-empty and shorter than 2^32 bytes,
    [encode_kv] returns a buffer, and [decode_kv] applied to that buffer
    gives back the timestamp, the key and the value. *)
Theorem encode_decode_round_trip (ts : Z) (key value : str) (kb vb : bytes) :
  0 ≤ ts < 4294967296 →
  encode_utf8 key = Ok kb → encode_utf8 value = Ok vb →
  kb ≠ [] → vb ≠ [] →
  len kb < 4294967296 → len vb < 4294967296 →
  ∃ sz datum, encode_kv ts key value = Ok (sz, datum) ∧
    decode_kv datum = Ok (ts, key, value).
Proof.
  intros Hts Hk Hv _ _ Hkl Hvl.
  exists (len kb + len vb), (record_bytes ts kb vb).
  assert (encode_kv ts key value = Ok (len kb + len vb, record_bytes ts kb vb)) as He.
  { apply encode_kv_Ok. exists kb, vb. repeat split; try done; lia. }
  split; [done|]. by apply (decode_encode_kv _ _ _ _ _ He).
Qed.

Lemma encode_decode_round_trip_witness :
  ∃ sz datum, encode_kv 1 s_othello s_shakespeare = Ok (sz, datum) ∧
    decode_kv datum = Ok (1, s_othello, s_shakespeare).
Proof.
  eapply (encode_decode_round_trip 1 s_othello s_shakespeare).
  - lia.
  - vm_compute. reflexivity.
  - vm_compute. reflexivity.
  - discriminate.
  - discriminate.
  - vm_compute. reflexivity.
  - vm_compute. reflexivity.
Defined.

(** C1, as stated, fails: a key of 2^32 letters has a non-empty UTF-8
    encoding, and [encode_kv] raises [struct.error] on it, the key size
    not fitting its 32-bit header field; no buffer is left to decode. *)
Lemma round_trip_fails_on_long_key :
  ∃ kb vb, encode_utf8 s_4GiB = Ok kb ∧ encode_utf8 s_v1 = Ok vb ∧
    kb ≠ [] ∧ vb ≠ [] ∧
    encode_kv 0 s_4GiB s_v1 = Raise StructError ∧
    ¬ ∃ sz datum, encode_kv 0 s_4GiB s_v1 = Ok (sz, datum) ∧
        decode_kv datum = Ok (0, s_4GiB, s_v1).
Proof.
  unfold s_4GiB.
  assert (4294967296 ≤ Z.of_nat (Z.to_nat 4294967296)) as Hbig.
  { rewrite Z2Nat.id; [apply Z.le_refl|apply Pos2Z.is_nonneg]. }
  revert Hbig. generalize (Z.to_nat 4294967296). intros n Hbig.
  exists (replicate n "a"%byte), ["v"%byte; "1"%byte].
  pose proof (encode_utf8_replicate_a n) as Hk.
  assert (encode_utf8 s_v1 = Ok ["v"%byte; "1"%byte]) as Hv by reflexivity.
  assert (len (replicate n "a"%byte) = Z.of_nat n) as Hlen.
  { unfold len. by rewrite length_replicate. }
  assert (encode_kv 0 (replicate n 97%N) s_v1 = Raise StructError) as He.
  { apply (encode_kv_too_long _ _ _ _ _ Hk Hv). left. rewrite Hlen. lia. }
  repeat split; try done.
  - intros Hnil. rewrite Hnil in Hlen. unfold len in Hlen. simpl in Hlen. lia.
  - intros (sz & datum & He' & _). rewrite He in He'. discriminate He'.
Qed.

(** C6: [decode_header] on a buffer of fewer than 12 bytes raises
    [struct.error], and so does [decode_kv]; [decode_kv] on a buffer shorter
    than the 12 + key_size + value_size bytes its header declares raises
    [struct.error] too. *)
Theorem header_boundary (data : bytes) :
  (len data < 12 →
     decode_header data = Raise StructError ∧ decode_kv data = Raise StructError) ∧
  (∀ ts ks vs, decode_header (take 12 data) = Ok (ts, ks, vs) →
     len data < 12 + ks + vs → decode_kv data = Raise StructError).
Proof.
  split.
  - intros Hlen. split.
    + apply unpack_III_wrong_length. lia.
    + by apply decode_kv_short.
  - intros ts ks vs Hh Hlen.
    apply (decode_kv_wrong_length _ _ _ _ Hh). lia.
Qed.

Lemma header_boundary_witness :
  (decode_header ["001"%byte; "000"%byte] = Raise StructError ∧
   decode_kv ["001"%byte; "000"%byte] = Raise StructError) ∧
  decode_kv (take 29 (record_bytes 1 (replicate 7 "o"%byte) (replicate 11 "s"%byte)))
  = Raise StructError.
Proof.
  split.
  - apply (proj1 (header_boundary ["001"%byte; "000"%byte])).
    vm_compute. reflexivity.
  - apply (proj2 (header_boundary
              (take 29 (record_bytes 1 (replicate 7 "o"%byte) (replicate 11 "s"%byte))))
             1 7 11).
    + vm_compute. reflexivity.
    + vm_compute. reflexivity.
Defined.

(** C9: [decode_kv] returns only on a buffer of exactly the 12 + key_size +
    value_size bytes its header declares, a buffer of any other length, so
    one with trailing bytes too, raising [struct.error]; and
    [decode_header] raises [struct.error] on every buffer whose length is
    not 12, longer ones included. *)
Theorem exact_length_decoding (data : bytes) :
  (∀ ts k v, decode_kv data = Ok (ts, k, v) →
     ∃ ks vs, decode_header (take 12 data) = Ok (ts, ks, vs) ∧
       len data = 12 + ks + vs) ∧
  (∀ ts ks vs, decode_header (take 12 data) = Ok (ts, ks, vs) →
     len data ≠ 12 + ks + vs → decode_kv data = Raise StructError) ∧
  (len data ≠ 12 → decode_header data = Raise StructError).
Proof.
  repeat split.
  - intros ts k v (ks & vs & Hh & Hlen & _)%decode_kv_Ok. eauto.
  - intros ts ks vs. apply decode_kv_wrong_length.
  - apply unpack_III_wrong_length.
Qed.

Lemma exact_length_decoding_witness :
  (∃ ks vs, decode_header (take 12 (record_bytes 1 ["k"%byte] ["v"%byte])) = Ok (1, ks, vs) ∧
     len (record_bytes 1 ["k"%byte] ["v"%byte]) = 12 + ks + vs) ∧
  decode_kv (record_bytes 1 ["k"%byte] ["v"%byte] ++ ["000"%byte]) = Raise StructError ∧
  decode_header (le_encode 4 1 ++ le_encode 4 1 ++ le_encode 4 1 ++ ["000"%byte])
  = Raise StructError.
Proof.
  split; [|split].
  - apply (proj1 (exact_length_decoding (record_bytes 1 ["k"%byte] ["v"%byte]))
             1 s_k [118%N]).
    vm_compute. reflexivity.
  - apply (proj1 (proj2 (exact_length_decoding
                           (record_bytes 1 ["k"%byte] ["v"%byte] ++ ["000"%byte])))
             1 1 1).
    + vm_compute. reflexivity.
    + vm_compute. discriminate.
  - apply (proj2 (proj2 (exact_length_decoding
             (le_encode 4 1 ++ le_encode 4 1 ++ le_encode 4 1 ++ ["000"%byte])))).
    vm_compute. discriminate.
Defined.

(** C2: after [set(k, v1)] and then [set(k, v2)], both returning, [get(k)]
    returns [v2], and the file holds what it held before followed by the
    record of the first [set] and then the record of the second: the second
    [set] appended, and left the bytes of the first record as they were. *)
Theorem last_write_wins (w w1 w2 : world) (k v1 v2 : str) :
  set k v1 w = (Ok tt, w1) → set k v2 w1 = (Ok tt, w2) →
  get k w2 = (Ok v2, w2) ∧
  ∃ sz1 datum1 sz2 datum2,
    encode_kv (timestamp (self w) + 1) k v1 = Ok (sz1, datum1) ∧
    encode_kv (timestamp (self w) + 2) k v2 = Ok (sz2, datum2) ∧
    disk w1 !! file_name (self w)
      = Some (default [] (disk w !! file_name (self w)) ++ datum1) ∧
    disk w2 !! file_name (self w)
      = Some (default [] (disk w !! file_name (self w)) ++ datum1 ++ datum2).
Proof.
  intros Hset1 Hset2. split; [by apply (get_after_set _ _ _ _ Hset2)|].
  destruct (encode_kv (timestamp (self w) + 1) k v1) as [[sz1 datum1]|e] eqn:He1.
  2:{ rewrite (set_Raise k v1 w e He1) in Hset1. discriminate Hset1. }
  pose proof (set_Ok k v1 w sz1 datum1 He1) as E1. rewrite Hset1 in E1.
  pose proof (f_equal (λ x, disk (snd x)) E1) as Hd1.
  pose proof (f_equal (λ x, timestamp (self (snd x))) E1) as Ht1.
  pose proof (f_equal (λ x, file_name (self (snd x))) E1) as Hn1.
  cbn [snd self disk timestamp file_name] in Hd1, Ht1, Hn1. clear E1.
  destruct (encode_kv (timestamp (self w1) + 1) k v2) as [[sz2 datum2]|e] eqn:He2.
  2:{ rewrite (set_Raise k v2 w1 e He2) in Hset2. discriminate Hset2. }
  pose proof (set_Ok k v2 w1 sz2 datum2 He2) as E2. rewrite Hset2 in E2.
  pose proof (f_equal (λ x, disk (snd x)) E2) as Hd2.
  cbn [snd self disk] in Hd2. clear E2.
  rewrite Hn1, Hd1, lookup_insert_eq, insert_insert_eq in Hd2.
  cbn [default from_option id] in Hd2.
  rewrite Ht1 in He2.
  replace (timestamp (self w) + 1 + 1) with (timestamp (self w) + 2) in He2 by lia.
  exists sz1, datum1, sz2, datum2.
  split; [done|]. split; [done|]. split.
  - by rewrite Hd1, lookup_insert_eq.
  - by rewrite Hd2, lookup_insert_eq, <- app_assoc.
Qed.

Lemma last_write_wins_witness :
  let w := World ∅ (fresh "data.db") in
  let w1 := snd (set s_k s_v1 w) in
  let w2 := snd (set s_k s_v2 w1) in
  get s_k w2 = (Ok s_v2, w2) ∧
  ∃ sz1 datum1 sz2 datum2,
    encode_kv (timestamp (self w) + 1) s_k s_v1 = Ok (sz1, datum1) ∧
    encode_kv (timestamp (self w) + 2) s_k s_v2 = Ok (sz2, datum2) ∧
    disk w1 !! file_name (self w)
      = Some (default [] (disk w !! file_name (self w)) ++ datum1) ∧
    disk w2 !! file_name (self w)
      = Some (default [] (disk w !! file_name (self w)) ++ datum1 ++ datum2).
Proof.
  intros w w1 w2.
  apply (last_write_wins w w1 w2 s_k s_v1 s_v2).
  - vm_compute. reflexivity.
  - vm_compute. reflexivity.
Defined.

(** C4: [get] on a key that is not in the key directory returns the empty
    string; it raises nothing, and leaves the engine and the files as they
    were. *)
Theorem get_unknown_key (w : world) (key : str) :
  key_dir (self w) !! key = None → get key w = (Ok [], w).
Proof. apply get_absent. Qed.

Lemma get_unknown_key_witness :
  get s_hamlet (snd (set s_othello s_shakespeare (World ∅ (fresh "data.db"))))
  = (Ok [], snd (set s_othello s_shakespeare (World ∅ (fresh "data.db")))).
Proof.
  apply (get_unknown_key
           (snd (set s_othello s_shakespeare (World ∅ (fresh "data.db")))) s_hamlet).
  vm_compute. reflexivity.
Defined.

(** C8: when [key] is in the directory and [get(key)] returns a value, the
    entry names the engine's file, and the value is the one decoded from
    the bytes read at the recorded offset with the recorded length, the
    decoded key being [key] and the decoded timestamp the entry's; when the
    bytes read there decode to another key or another timestamp, [get]
    raises [AssertionError] and returns no value. *)
Theorem get_consistency_check (w : world) (key : str) (name : string) (sz pos ts : Z) :
  key_dir (self w) !! key = Some (name, sz, pos, ts) →
  (∀ v, fst (get key w) = Ok v →
     name = file_name (self w) ∧
     ∃ data datum, disk w !! name = Some data ∧
       read_at data pos sz = Ok datum ∧ decode_kv datum = Ok (ts, key, v)) ∧
  (∀ data datum ts' key' v',
     name = file_name (self w) → disk w !! name = Some data →
     read_at data pos sz = Ok datum → decode_kv datum = Ok (ts', key', v') →
     key' ≠ key ∨ ts' ≠ ts →
     fst (get key w) = Raise AssertionError).
Proof.
  intros Hk. rewrite (get_present _ _ _ _ _ _ Hk). cbn [fst]. split.
  - intros v.
    destruct (bool_decide_reflect (name = file_name (self w))) as [Hn|];
      cbn [assert mbind result_bind]; [|done].
    destruct (disk w !! name) as [data|]; [|done].
    destruct (read_at data pos sz) as [datum|] eqn:Hread;
      cbn [mbind result_bind]; [|done].
    destruct (decode_kv datum) as [[[st sk] sv]|] eqn:Hdec;
      cbn [mbind result_bind]; [|done].
    destruct (bool_decide_reflect (key = sk)) as [<-|];
      cbn [assert mbind result_bind]; [|done].
    destruct (bool_decide_reflect (ts = st)) as [<-|];
      cbn [assert mbind result_bind]; [|done].
    intros [= ->]. split; [done|]. by exists data, datum.
  - intros data datum ts' key' v' Hn Hd Hread Hdec Hbad.
    rewrite bool_decide_eq_true_2 by done. cbn [assert mbind result_bind].
    rewrite Hd, Hread. cbn [mbind result_bind]. rewrite Hdec.
    cbn [mbind result_bind].
    destruct (bool_decide_reflect (key = key')) as [->|];
      cbn [assert mbind result_bind]; [|done].
    destruct (bool_decide_reflect (ts = ts')) as [->|];
      cbn [assert mbind result_bind]; [|done].
    by destruct Hbad.
Qed.

Lemma get_consistency_check_witness :
  let good := snd (set s_k s_v1 (World ∅ (fresh "data.db"))) in
  let stale := World (disk good)
                 (with_key_dir (<[s_k := ("data.db"%string, 15, 0, 5)]> ∅)
                    (fresh "data.db")) in
  ("data.db"%string = file_name (self good) ∧
   ∃ data datum, disk good !! "data.db"%string = Some data ∧
     read_at data 0 15 = Ok datum ∧ decode_kv datum = Ok (1, s_k, s_v1)) ∧
  fst (get s_k stale) = Raise AssertionError.
Proof.
  intros good stale. split.
  - apply (proj1 (get_consistency_check good s_k "data.db" 15 0 1
                    ltac:(vm_compute; reflexivity)) s_v1).
    vm_compute. reflexivity.
  - apply (proj2 (get_consistency_check stale s_k "data.db" 15 0 5
                    ltac:(vm_compute; reflexivity))
             (record_bytes 1 ["k"%byte] ["v"%byte; "1"%byte])
             (record_bytes 1 ["k"%byte] ["v"%byte; "1"%byte]) 1 s_k s_v1).
    + reflexivity.
    + vm_compute. reflexivity.
    + vm_compute. reflexivity.
    + vm_compute. reflexivity.
    + right. discriminate.
Defined.

(** C10: [get], whatever its outcome, leaves the key directory, the
    counter, the file name and every file as they were, and so do
    [__getitem__] and [close]; [set] leaves the files as they were or
    appends to the engine's file. *)
Theorem get_is_read_only (w : world) (key value : str) :
  snd (get key w) = w ∧
  snd (__getitem__ key w) = w ∧
  snd (close w) = w ∧
  (disk (snd (set key value w)) = disk w ∨
   ∃ datum, disk (snd (set key value w))
    = <[file_name (self w) := default [] (disk w !! file_name (self w)) ++ datum]>
        (disk w)).
Proof.
  repeat split.
  - apply get_frame.
  - apply get_frame.
  - unfold close, open_rb_plus, open_rb, get_self, mbind, mret, M_bind, M_ret.
    by destruct (disk w !! file_name (self w)).
  - destruct (encode_kv (timestamp (self w) + 1) key value) as [[sz datum]|e] eqn:He.
    + rewrite (set_Ok _ _ _ _ _ He). right. by exists datum.
    + rewrite (set_Raise _ _ _ _ He). by left.
Qed.

(** C7: when the startup scan gets to a record whose header declares a key
    size of 0 or a value size of 0, or after whose header no key byte can
    be read, that turn of the loop raises [AssertionError]; the loop has no
    next state from there, and the construction of the engine raises
    [AssertionError]. *)
Theorem startup_scan_fails_fast (d : gmap string bytes) (name : string)
    (data : bytes) (s : DiskStorage) (f : file) (ts ks vs : Z) :
  d !! name = Some data →
  scan_reaches (fresh name) (File data 0) s f →
  decode_header (take 12 (drop (offset f) data)) = Ok (ts, ks, vs) →
  ks = 0 ∨ vs = 0 ∨ take (Z.to_nat ks) (drop (offset f + 12) data) = [] →
  key_dir_from_body s f = Raise AssertionError ∧
  (¬ ∃ y, scan_turn (s, f) y) ∧
  init d name = Some (Raise AssertionError).
Proof.
  intros Hd Hreach Hh Hbad.
  pose proof (scan_reaches_contents _ _ _ _ Hreach) as Hc. cbn [contents] in Hc.
  rewrite <- Hc in Hh, Hbad.
  pose proof (body_at_bad_record s f ts ks vs Hh Hbad) as Hbody.
  split; [done|]. split.
  - intros [y Hy]. unfold scan_turn in Hy. cbn [fst snd] in Hy. congruence.
  - unfold init. rewrite Hd. fold (fresh name).
    rewrite (key_dir_from_reaches _ _ _ _ Hreach).
    unfold key_dir_from. cbn [key_dir_loop]. by rewrite Hbody.
Qed.

Lemma startup_scan_fails_fast_witness :
  let s := with_key_dir (<[s_k := ("data.db"%string, 15, 0, 1)]> ∅) (fresh "data.db") in
  let f := File bad_log 15 in
  key_dir_from_body s f = Raise AssertionError ∧
  (¬ ∃ y, scan_turn (s, f) y) ∧
  init {["data.db"%string := bad_log]} "data.db" = Some (Raise AssertionError).
Proof.
  intros s f.
  apply (startup_scan_fails_fast {["data.db"%string := bad_log]} "data.db" bad_log
           s f 2 0 5).
  - vm_compute. reflexivity.
  - eapply rtc_l; [|apply rtc_refl]. unfold scan_turn. vm_compute. reflexivity.
  - vm_compute. reflexivity.
  - left. reflexivity.
Defined.

(** C5: a new engine has counter 0, whatever the file holds; after n
    calls of [set] the counter is n, and the next call of [set] is given
    timestamp n + 1 by [next_timestamp], leaves the counter at n + 1, and,
    when it returns, has appended a record carrying timestamp n + 1 and
    entered that timestamp in the directory. *)
Theorem write_sequence_counter (d : gmap string bytes) (name : string)
    (s : DiskStorage) (kvs : list (str * str)) (key value : str) :
  init d name = Some (Ok s) →
  let w := after_sets kvs (World d s) in
  let n := len kvs + 1 in
  timestamp s = 0 ∧
  timestamp (self w) = len kvs ∧
  fst (next_timestamp w) = Ok n ∧
  timestamp (self (snd (set key value w))) = n ∧
  (∀ w', set key value w = (Ok tt, w') →
     ∃ kb vb sz pos,
       disk w' !! name = Some (default [] (disk w !! name) ++ record_bytes n kb vb) ∧
       key_dir (self w') !! key = Some (name, sz, pos, n)).
Proof.
  intros [Hts Hname]%init_fields w n.
  destruct (after_sets_counter kvs (World d s)) as [Ht Hn].
  cbn [self] in Ht, Hn. fold w in Ht, Hn. rewrite Hts in Ht. rewrite Hname in Hn.
  assert (timestamp (self w) + 1 = n) as Hnext by (subst n; lia).
  split; [done|]. split; [lia|]. split; [|split].
  - rewrite next_timestamp_eq. cbn [fst]. by rewrite Hnext.
  - destruct (set_counter key value w) as [-> _]. done.
  - intros w' (kb & vb & _ & _ & _ & _ & _ & ->)%set_Ok_inv.
    rewrite Hnext, Hn. cbn [disk self key_dir].
    exists kb, vb, (len (record_bytes n kb vb)), (len (default [] (disk w !! name))).
    by rewrite !lookup_insert_eq.
Qed.

Lemma write_sequence_counter_witness :
  let d : gmap string bytes := {["data.db"%string := old_log]} in
  let s := with_key_dir (<[s_k := ("data.db"%string, 15, 0, 7)]> ∅) (fresh "data.db") in
  let w := after_sets [(s_othello, s_shakespeare)] (World d s) in
  let n := len [(s_othello, s_shakespeare)] + 1 in
  timestamp s = 0 ∧
  timestamp (self w) = len [(s_othello, s_shakespeare)] ∧
  fst (next_timestamp w) = Ok n ∧
  timestamp (self (snd (set s_hamlet s_shakespeare w))) = n ∧
  (∀ w', set s_hamlet s_shakespeare w = (Ok tt, w') →
     ∃ kb vb sz pos,
       disk w' !! "data.db"%string
         = Some (default [] (disk w !! "data.db"%string) ++ record_bytes n kb vb) ∧
       key_dir (self w') !! s_hamlet = Some ("data.db"%string, sz, pos, n)).
Proof.
  intros d s.
  apply (write_sequence_counter d "data.db" s [(s_othello, s_shakespeare)]
           s_hamlet s_shakespeare).
  vm_compute. reflexivity.
Defined.

(** C3 (amended): let an engine be constructed over a file that is absent
    or holds a valid log, and let a sequence of [set] calls with non-empty
    keys and values all return.  Then the construction of a new engine over
    the same file returns; the new engine has the same key directory; for
    every key its [get] has the outcome the first engine's [get] has; and
    for every key written that outcome is the value written last. *)
Theorem persistence_across_restart (d : gmap string bytes) (name : string)
    (s : DiskStorage) (kvs : list (str * str)) (w' : world) :
  d !! name = None ∨ (∃ data, d !! name = Some data ∧ valid_log data) →
  init d name = Some (Ok s) →
  Forall (λ kv, kv.1 ≠ [] ∧ kv.2 ≠ []) kvs →
  run_sets kvs (World d s) = (Ok tt, w') →
  ∃ s', init (disk w') name = Some (Ok s') ∧
    key_dir s' = key_dir (self w') ∧
    (∀ key, fst (get key (World (disk w') s')) = fst (get key w')) ∧
    (∀ key v, last_write key kvs = Some v →
       fst (get key (World (disk w') s')) = Ok v).
Proof.
  intros Hfile Hinit Hne Hrun.
  destruct (init_fields _ _ _ Hinit) as [_ Hname].
  destruct (run_sets_log kvs _ _ Hne Hrun) as (rs & Hrs & Hname' & Hkd & Hdisk).
  cbn [self disk] in Hname', Hkd, Hdisk. rewrite Hname in Hname', Hkd, Hdisk.
  assert (∃ s', init (disk w') name = Some (Ok s') ∧ file_name s' = name ∧
            key_dir s' = key_dir (self w')) as (s' & Hinit' & Hn' & Hkd').
  { destruct Hfile as [Hnone|(data & Hsome & rs0 & Hrs0 & ->)].
    - rewrite (init_absent _ _ Hnone) in Hinit. injection Hinit as <-.
      rewrite Hnone in Hkd, Hdisk. cbn [default from_option id key_dir fresh] in Hkd, Hdisk.
      destruct Hdisk as [Hd|(_ & Hd & ->)].
      + change ([] ++ log_of rs) with (log_of rs) in Hd.
        rewrite (init_log _ _ _ Hd Hrs). eexists. split; [done|]. split; [done|].
        cbn [key_dir]. by rewrite Hkd.
      + rewrite Hd, (init_absent _ _ Hnone). eexists. split; [done|]. split; [done|].
        by rewrite Hkd.
    - rewrite (init_log _ _ _ Hsome Hrs0) in Hinit. injection Hinit as <-.
      rewrite Hsome in Hkd, Hdisk. cbn [default from_option id key_dir] in Hkd, Hdisk.
      assert (disk w' !! name = Some (log_of (rs0 ++ rs))) as Hd.
      { rewrite log_of_app. destruct Hdisk as [Hd|(_ & Hd & ->)]; [done|].
        by rewrite Hd, Hsome, app_nil_r. }
      assert (forallb loadable (rs0 ++ rs) = true) as Hall
        by (by rewrite forallb_app, Hrs0, Hrs).
      rewrite (init_log _ _ _ Hd Hall). eexists. split; [done|]. split; [done|].
      cbn [key_dir]. rewrite Hkd, index_records_app by done. done. }
  exists s'. split; [done|]. split; [done|].
  assert (∀ key, fst (get key (World (disk w') s')) = fst (get key w')) as Hget.
  { intros key. destruct w' as [d' sw']. cbn [disk self] in *.
    apply get_same_directory; congruence. }
  split; [done|].
  intros key v Hlast. rewrite Hget.
  by rewrite (get_points_at _ _ _ (run_sets_points_at _ _ _ _ _ Hrun Hlast)).
Qed.

Lemma persistence_across_restart_witness :
  let kvs := [(s_othello, s_shakespeare); (s_hamlet, s_shakespeare)] in
  let w' := snd (run_sets kvs (World ∅ (fresh "data.db"))) in
  ∃ s', init (disk w') "data.db" = Some (Ok s') ∧
    key_dir s' = key_dir (self w') ∧
    (∀ key, fst (get key (World (disk w') s')) = fst (get key w')) ∧
    (∀ key v, last_write key kvs = Some v →
       fst (get key (World (disk w') s')) = Ok v).
Proof.
  intros kvs w'.
  apply (persistence_across_restart ∅ "data.db" (fresh "data.db") kvs w').
  - left. reflexivity.
  - reflexivity.
  - repeat constructor; discriminate.
  - vm_compute. reflexivity.
Defined.

(** C3, as stated, fails: [set("k", "")] returns and the engine's [get("k")]
    returns the empty string, but a new engine cannot be constructed over
    the file, the startup scan asserting that every value size is
    positive. *)
Lemma restart_rejects_empty_value :
  let w0 := World ∅ (fresh "data.db") in
  let w1 := snd (run_sets [(s_k, [])] w0) in
  init ∅ "data.db" = Some (Ok (fresh "data.db")) ∧
  run_sets [(s_k, [])] w0 = (Ok tt, w1) ∧
  fst (get s_k w1) = Ok [] ∧
  init (disk w1) "data.db" = Some (Raise AssertionError) ∧
  ¬ ∃ s', init (disk w1) "data.db" = Some (Ok s').
Proof.
  intros w0 w1.
  assert (init (disk w1) "data.db" = Some (Raise AssertionError)) as Hinit
    by (vm_compute; reflexivity).
  split; [reflexivity|]. split; [vm_compute; reflexivity|].
  split; [vm_compute; reflexivity|]. split; [done|].
  intros [s' Hs']. rewrite Hinit in Hs'. discriminate Hs'.
Qed.

(** The startup scan accepts a log that ends inside its last record; a
    [set] then appends after the fragment, and a new engine cannot be
    constructed over the file. *)
Lemma restart_after_truncated_log :
  let d : gmap string bytes := {["data.db"%string := truncated_log]} in
  ∃ s, init d "data.db" = Some (Ok s) ∧
    ∃ w', run_sets [(s_othello, s_shakespeare)] (World d s) = (Ok tt, w') ∧
      fst (get s_othello w') = Ok s_shakespeare ∧
      init (disk w') "data.db" = Some (Raise StructError).
Proof.
  intros d.
  set (s := with_key_dir (<[s_k := ("data.db"%string, 33, 0, 1)]> ∅) (fresh "data.db")).
  exists s. split; [vm_compute; reflexivity|].
  exists (snd (run_sets [(s_othello, s_shakespeare)] (World d s))).
  split; [vm_compute; reflexivity|].
  split; vm_compute; reflexivity.
Qed.

(** The scenario of the specification: two keys written to an empty disk,
    read back, and read again by a new engine over the same file. *)
Lemma othello_hamlet_scenario :
  let w0 := World ∅ (fresh "data.db") in
  let w1 := snd (set s_othello s_shakespeare w0) in
  let w2 := snd (set s_hamlet s_shakespeare w1) in
  len <$> disk w1 !! "data.db"%string = Some 30 ∧
  key_dir (self w1) !! s_othello = Some ("data.db"%string, 30, 0, 1) ∧
  fst (get s_othello w1) = Ok s_shakespeare ∧
  key_dir (self w2) !! s_hamlet = Some ("data.db"%string, 29, 30, 2) ∧
  fst (get s_hamlet w2) = Ok s_shakespeare ∧
  fst (get s_othello w2) = Ok s_shakespeare ∧
  ∃ s, init (disk w2) "data.db" = Some (Ok s) ∧
    fst (get s_hamlet (World (disk w2) s)) = Ok s_shakespeare.
Proof.
  intros w0 w1 w2.
  repeat (split; [vm_compute; reflexivity|]).
  exists (with_key_dir
            (<[s_hamlet := ("data.db"%string, 29, 30, 2)]>
               (<[s_othello := ("data.db"%string, 30, 0, 1)]> ∅))
            (fresh "data.db")).
  split; vm_compute; reflexivity.
Qed.

(** * Further properties of the code *)

(** ** [format.py] *)

(** X1: three fields that fit 32 bits are packed by [encode_header] into
    12 bytes, from which [decode_header] reads them back. *)
Theorem header_round_trip (ts ks vs : Z) :
  0 ≤ ts < 4294967296 → 0 ≤ ks < 4294967296 → 0 ≤ vs < 4294967296 →
  ∃ h, encode_header ts ks vs = Ok h ∧ len h = 12 ∧
    decode_header h = Ok (ts, ks, vs).
Proof.
  intros Hts Hks Hvs.
  exists (le_encode 4 ts ++ le_encode 4 ks ++ le_encode 4 vs).
  split; [by apply encode_header_Ok|]. split.
  - unfold len. by rewrite length_header.
  - by apply unpack_III_le_encode.
Qed.

Lemma header_round_trip_witness :
  ∃ h, encode_header 1 7 11 = Ok h ∧ len h = 12 ∧ decode_header h = Ok (1, 7, 11).
Proof. apply (header_round_trip 1 7 11); lia. Defined.

(** X2: every buffer of 12 bytes is a header: [decode_header] returns three
    fields in [0, 2^32), and [encode_header] of them is the buffer. *)
Theorem header_decode_encode (data : bytes) :
  len data = 12 →
  ∃ ts ks vs, decode_header data = Ok (ts, ks, vs) ∧
    (0 ≤ ts < 4294967296 ∧ 0 ≤ ks < 4294967296 ∧ 0 ≤ vs < 4294967296) ∧
    encode_header ts ks vs = Ok data.
Proof.
  intros Hlen.
  destruct (decode_header data) as [[[ts ks] vs]|e] eqn:Hh.
  - exists ts, ks, vs. split; [done|].
    apply unpack_III_inv in Hh as [Hr Hd]. split; [done|].
    by apply encode_header_Ok.
  - unfold decode_header, unpack_III in Hh. rewrite Hlen in Hh. done.
Qed.

Lemma header_decode_encode_witness :
  ∃ ts ks vs, decode_header (replicate 12 "255"%byte) = Ok (ts, ks, vs) ∧
    (0 ≤ ts < 4294967296 ∧ 0 ≤ ks < 4294967296 ∧ 0 ≤ vs < 4294967296) ∧
    encode_header ts ks vs = Ok (replicate 12 "255"%byte).
Proof. apply (header_decode_encode (replicate 12 "255"%byte)). reflexivity. Defined.

(** X3: [encode_header] raises exactly when one of its three arguments is
    negative or above 4294967295, and what it raises is [struct.error]. *)
Theorem encode_header_range (ts ks vs : Z) (e : exn) :
  (encode_header ts ks vs = Raise e →
     e = StructError ∧
     ¬ (0 ≤ ts < 4294967296 ∧ 0 ≤ ks < 4294967296 ∧ 0 ≤ vs < 4294967296)) ∧
  (¬ (0 ≤ ts < 4294967296 ∧ 0 ≤ ks < 4294967296 ∧ 0 ≤ vs < 4294967296) →
     encode_header ts ks vs = Raise StructError).
Proof.
  assert (∀ e', encode_header ts ks vs = Raise e' → e' = StructError) as Hkind.
  { intros e'. unfold encode_header, pack_III.
    destruct (pack_I ts) as [x|e1] eqn:H1; cbn [mbind result_bind];
      [|intros [= <-]; by apply pack_I_Raise in H1].
    destruct (pack_I ks) as [y|e1] eqn:H2; cbn [mbind result_bind];
      [|intros [= <-]; by apply pack_I_Raise in H2].
    destruct (pack_I vs) as [z|e1] eqn:H3; cbn [mbind result_bind]; [done|].
    intros [= <-]. by apply pack_I_Raise in H3. }
  split.
  - intros He. split; [by apply Hkind|]. intros Hr.
    assert (encode_header ts ks vs
            = Ok (le_encode 4 ts ++ le_encode 4 ks ++ le_encode 4 vs)) as Hok
      by (by apply encode_header_Ok).
    congruence.
  - intros Hr. destruct (encode_header ts ks vs) as [h|e'] eqn:He.
    + apply encode_header_Ok in He as [? _]. done.
    + by rewrite (Hkind _ eq_refl).
Qed.

(** X4: [encode_kv] returns exactly when key and value encode, the
    timestamp is in [0, 2^32) and both encodings are shorter than 2^32
    bytes; the buffer is then the header followed by the key bytes and the
    value bytes, of 12 more bytes than the size returned with it, which is
    the sum of the two sizes, an empty key or value included. *)
Theorem encode_kv_returns_iff (ts : Z) (key value : str) (sz : Z) (datum : bytes) :
  encode_kv ts key value = Ok (sz, datum) ↔
  ∃ kb vb, encode_utf8 key = Ok kb ∧ encode_utf8 value = Ok vb ∧
    0 ≤ ts < 4294967296 ∧ len kb < 4294967296 ∧ len vb < 4294967296 ∧
    sz = len kb + len vb ∧ len datum = sz + 12 ∧
    datum = le_encode 4 ts ++ le_encode 4 (len kb) ++ le_encode 4 (len vb)
            ++ kb ++ vb.
Proof.
  rewrite encode_kv_Ok. split.
  - intros (kb & vb & ? & ? & ? & ? & ? & -> & ->). exists kb, vb.
    rewrite len_record_bytes. repeat split; try done; lia.
  - intros (kb & vb & ? & ? & ? & ? & ? & -> & _ & ->). exists kb, vb.
    repeat split; try done; lia.
Qed.

(** X5: [encode_kv] raises nothing but [UnicodeEncodeError] and
    [struct.error]. *)
Theorem encode_kv_raises_only (ts : Z) (key value : str) (e : exn) :
  encode_kv ts key value = Raise e → e = UnicodeEncodeError ∨ e = StructError.
Proof. apply encode_kv_Raise. Qed.

Lemma encode_kv_raises_only_witness :
  UnicodeEncodeError = UnicodeEncodeError ∨ UnicodeEncodeError = StructError.
Proof.
  apply (encode_kv_raises_only 1 [55296%N] s_v1 UnicodeEncodeError).
  vm_compute. reflexivity.
Defined.

(** X6: [decode_kv] raises nothing but [struct.error] and
    [UnicodeDecodeError]. *)
Theorem decode_kv_raises_only (data : bytes) (e : exn) :
  decode_kv data = Raise e → e = StructError ∨ e = UnicodeDecodeError.
Proof. apply decode_kv_Raise. Qed.

Lemma decode_kv_raises_only_witness :
  UnicodeDecodeError = StructError ∨ UnicodeDecodeError = UnicodeDecodeError.
Proof.
  apply (decode_kv_raises_only (record_bytes 1 ["255"%byte] ["v"%byte])
           UnicodeDecodeError).
  vm_compute. reflexivity.
Defined.

(** X7: whenever [encode_kv] returns a buffer, [decode_kv] of the buffer
    is the triple that was encoded: neither function refuses an empty key
    or an empty value. *)
Theorem round_trip_of_any_encoded_record (ts : Z) (key value : str) (sz : Z)
    (datum : bytes) :
  encode_kv ts key value = Ok (sz, datum) →
  decode_kv datum = Ok (ts, key, value).
Proof. apply decode_encode_kv. Qed.

Lemma round_trip_of_any_encoded_record_witness :
  decode_kv (record_bytes 1 [] []) = Ok (1, [], []).
Proof.
  apply (round_trip_of_any_encoded_record 1 [] [] 0 (record_bytes 1 [] [])).
  vm_compute. reflexivity.
Defined.

(** X8: one buffer is the encoding of one triple only. *)
Theorem encode_kv_injective (ts ts' : Z) (key key' value value' : str)
    (sz sz' : Z) (datum : bytes) :
  encode_kv ts key value = Ok (sz, datum) →
  encode_kv ts' key' value' = Ok (sz', datum) →
  ts = ts' ∧ key = key' ∧ value = value' ∧ sz = sz'.
Proof.
  intros H1 H2.
  pose proof (decode_encode_kv _ _ _ _ _ H1) as D1.
  pose proof (decode_encode_kv _ _ _ _ _ H2) as D2.
  rewrite D1 in D2.
  assert (ts = ts' ∧ key = key' ∧ value = value') as (<- & <- & <-)
    by (repeat split; congruence).
  repeat split. rewrite H1 in H2. congruence.
Qed.

Lemma encode_kv_injective_witness :
  1 = 1 ∧ s_k = s_k ∧ s_v1 = s_v1 ∧ 3 = 3.
Proof.
  apply (encode_kv_injective 1 1 s_k s_k s_v1 s_v1 3 3
           (record_bytes 1 ["k"%byte] ["v"%byte; "1"%byte])).
  - vm_compute. reflexivity.
  - vm_compute. reflexivity.
Defined.

(** X9: whenever [decode_kv] returns a triple from a buffer, [encode_kv]
    of the triple returns that buffer, with its length less 12. *)
Theorem encode_of_any_decoded_record (data : bytes) (ts : Z) (key value : str) :
  decode_kv data = Ok (ts, key, value) →
  encode_kv ts key value = Ok (len data - 12, data).
Proof. apply encode_decode_kv. Qed.

Lemma encode_of_any_decoded_record_witness :
  encode_kv 7 s_k s_v1 = Ok (len old_log - 12, old_log).
Proof.
  apply (encode_of_any_decoded_record old_log 7 s_k s_v1).
  vm_compute. reflexivity.
Defined.

(** ** [disk_store.py] *)

(** X10: after [set(k, v)] returns, [get(k)] in the same engine returns
    [v], whatever the engine and the files were before. *)
Theorem write_then_read (w w' : world) (key value : str) :
  set key value w = (Ok tt, w') → get key w' = (Ok value, w').
Proof. apply get_after_set. Qed.

Lemma write_then_read_witness :
  get s_k (snd (set s_k [] (World ∅ (fresh "data.db"))))
  = (Ok [], snd (set s_k [] (World ∅ (fresh "data.db")))).
Proof.
  apply (write_then_read (World ∅ (fresh "data.db"))
           (snd (set s_k [] (World ∅ (fresh "data.db")))) s_k []).
  vm_compute. reflexivity.
Defined.

(** X11: after a sequence of [set] calls that all return, [get] of a key
    written by one of them returns the value of the last call that wrote
    that key. *)
Theorem get_returns_last_write (kvs : list (str * str)) (w w' : world)
    (key value : str) :
  run_sets kvs w = (Ok tt, w') → last_write key kvs = Some value →
  get key w' = (Ok value, w').
Proof.
  intros Hrun Hlast.
  apply get_points_at. by apply (run_sets_points_at _ _ _ _ _ Hrun Hlast).
Qed.

Lemma get_returns_last_write_witness :
  let kvs := [(s_k, s_v1); (s_othello, s_shakespeare); (s_k, s_v2)] in
  let w' := snd (run_sets kvs (World ∅ (fresh "data.db"))) in
  get s_k w' = (Ok s_v2, w').
Proof.
  intros kvs w'.
  apply (get_returns_last_write kvs (World ∅ (fresh "data.db")) w' s_k s_v2).
  - vm_compute. reflexivity.
  - reflexivity.
Defined.

(** X12: a [set] that returns has appended one record to the engine's
    file, creating the file when there was none, and has changed no other
    file; the record carries the counter's new value, and the directory
    entry of the key holds the file name, the length of the record, the
    length the file had before, and that timestamp; no other entry
    changes. *)
Theorem set_appends_one_record (w w' : world) (key value : str) :
  set key value w = (Ok tt, w') →
  let name := file_name (self w) in
  let old := default [] (disk w !! name) in
  let t := timestamp (self w) + 1 in
  ∃ kb vb, encode_utf8 key = Ok kb ∧ encode_utf8 value = Ok vb ∧
    disk w' !! name = Some (old ++ record_bytes t kb vb) ∧
    (∀ other, other ≠ name → disk w' !! other = disk w !! other) ∧
    key_dir (self w') !! key = Some (name, 12 + len kb + len vb, len old, t) ∧
    (∀ k, k ≠ key → key_dir (self w') !! k = key_dir (self w) !! k) ∧
    timestamp (self w') = t ∧ file_name (self w') = name.
Proof.
  intros (kb & vb & Hk & Hv & _ & _ & _ & ->)%set_Ok_inv name old t.
  exists kb, vb. cbn [disk self key_dir timestamp file_name].
  rewrite !lookup_insert_eq, len_record_bytes.
  repeat split; try done.
  - intros other Hne. by apply lookup_insert_ne.
  - intros k Hne. by apply lookup_insert_ne.
Qed.

Lemma set_appends_one_record_witness :
  let w := World {["data.db"%string := old_log]} (fresh "data.db") in
  let w' := snd (set s_othello s_shakespeare w) in
  let name := file_name (self w) in
  let old := default [] (disk w !! name) in
  let t := timestamp (self w) + 1 in
  ∃ kb vb, encode_utf8 s_othello = Ok kb ∧ encode_utf8 s_shakespeare = Ok vb ∧
    disk w' !! name = Some (old ++ record_bytes t kb vb) ∧
    (∀ other, other ≠ name → disk w' !! other = disk w !! other) ∧
    key_dir (self w') !! s_othello = Some (name, 12 + len kb + len vb, len old, t) ∧
    (∀ k, k ≠ s_othello → key_dir (self w') !! k = key_dir (self w) !! k) ∧
    timestamp (self w') = t ∧ file_name (self w') = name.
Proof.
  intros w w'.
  apply (set_appends_one_record w w' s_othello s_shakespeare).
  vm_compute. reflexivity.
Defined.



(** X14: once the counter has reached 4294967295, [set] of a key and a
    value that encode raises [struct.error] and writes nothing, the next
    timestamp not fitting its 32-bit header field. *)
Theorem set_fails_when_counter_is_exhausted (w : world) (key value : str)
    (kb vb : bytes) :
  4294967295 ≤ timestamp (self w) →
  encode_utf8 key = Ok kb → encode_utf8 value = Ok vb →
  fst (set key value w) = Raise StructError ∧
  disk (snd (set key value w)) = disk w.
Proof.
  intros Ht Hk Hv.
  assert (encode_kv (timestamp (self w) + 1) key value = Raise StructError) as He.
  { unfold encode_kv. rewrite Hk, Hv. cbn [mbind result_bind].
    unfold encode_header, pack_III.
    rewrite (pack_I_out_of_range (timestamp (self w) + 1)) by lia. done. }
  by rewrite (set_Raise _ _ _ _ He).
Qed.

Lemma set_fails_when_counter_is_exhausted_witness :
  let w := World ∅ (with_timestamp 4294967295 (fresh "data.db")) in
  fst (set s_k s_v1 w) = Raise StructError ∧ disk (snd (set s_k s_v1 w)) = disk w.
Proof.
  intros w.
  apply (set_fails_when_counter_is_exhausted w s_k s_v1
           ["k"%byte] ["v"%byte; "1"%byte]).
  - vm_compute. discriminate.
  - reflexivity.
  - reflexivity.
Defined.

(** X15: the file only grows: after any sequence of [set] calls, returning
    or raising, the engine's file begins with the bytes it held before. *)
Theorem file_is_append_only (kvs : list (str * str)) (w : world) :
  ∃ tail, default [] (disk (after_sets kvs w) !! file_name (self w))
          = default [] (disk w !! file_name (self w)) ++ tail.
Proof. apply after_sets_extends_file. Qed.

(** X16: [close] changes nothing; it raises [FileNotFoundError] while the
    engine's file does not exist, as for a new engine that has not written,
    and returns once a [set] has returned. *)
Theorem close_needs_the_file (w : world) (key value : str) :
  snd (close w) = w ∧
  (disk w !! file_name (self w) = None → fst (close w) = Raise FileNotFoundError) ∧
  (∀ w', set key value w = (Ok tt, w') → close w' = (Ok tt, w')).
Proof.
  assert (∀ x, close x = (match disk x !! file_name (self x) with
                          | Some _ => Ok tt
                          | None => Raise FileNotFoundError
                          end, x)) as Hclose.
  { intros x.
    unfold close, open_rb_plus, open_rb, get_self, mbind, mret, M_bind, M_ret.
    by destruct (disk x !! file_name (self x)). }
  split; [by rewrite Hclose|]. split.
  - intros Hnone. by rewrite Hclose, Hnone.
  - intros w' (kb & vb & _ & _ & _ & _ & _ & ->)%set_Ok_inv.
    rewrite Hclose. cbn [disk self file_name]. by rewrite lookup_insert_eq.
Qed.

(** X17: the startup scan ends on every file: the construction of an
    engine returns the engine or raises, and never runs out of the turns
    the model allows the loop. *)
Theorem startup_scan_terminates (d : gmap string bytes) (name : string)
    (s : DiskStorage) (f : file) :
  (∃ r, key_dir_from s f = Some r) ∧ (∃ r, init d name = Some r).
Proof. split; [apply key_dir_from_total|apply init_total]. Qed.

(** X18: over a valid log the construction of an engine returns, and the
    directory entry of a key is that of the last record with that key: the
    file name, the length of that record, the offset where it begins and
    its timestamp; [get] of the key decodes the value of that record. *)
Theorem scan_keeps_last_record (d : gmap string bytes) (name : string)
    (rs1 rs2 : list raw_record) (r : raw_record) (key : str) :
  d !! name = Some (log_of (rs1 ++ r :: rs2)) →
  forallb loadable (rs1 ++ r :: rs2) = true →
  has_key key r → Forall (λ r', ¬ has_key key r') rs2 →
  ∃ s, init d name = Some (Ok s) ∧
    key_dir s !! key
      = Some (name, len (raw_bytes r), len (log_of rs1), r_timestamp r) ∧
    fst (get key (World d s)) = (v ← decode_utf8 (r_value r); Ok v).
Proof.
  intros Hd Hall Hkey Hrs2.
  pose proof Hall as Hall'. rewrite forallb_app in Hall'.
  apply andb_true_iff in Hall' as [Hrs1 Hr]. cbn [forallb] in Hr.
  apply andb_true_iff in Hr as [Hr _].
  pose proof Hr as (Hts & Hkl & Hvl & _)%loadable_true.
  set (s := {| timestamp := 0; file_name := name;
               key_dir := index_records name 0 (rs1 ++ r :: rs2) ∅ |}).
  exists s. split; [by apply (init_log _ _ _ Hd Hall)|].
  assert (key_dir s !! key
          = Some (name, len (raw_bytes r), len (log_of rs1), r_timestamp r)) as Hl.
  { subst s. cbn [key_dir].
    rewrite index_records_app by done. cbn [index_records].
    unfold has_key in Hkey. rewrite Hkey.
    rewrite index_records_other_keys by done.
    rewrite lookup_insert_eq. by rewrite Z.add_0_l. }
  split; [done|].
  rewrite (get_entry_spans (World d s) key
             (name, len (raw_bytes r), len (log_of rs1), r_timestamp r)
             (log_of (rs1 ++ r :: rs2)) (r_value r)); [done|done|done|].
  cbn [self file_name]. unfold raw_bytes.
  exists (r_timestamp r), (r_key r), (log_of rs1), (log_of rs2).
  rewrite log_of_app, log_of_cons. repeat split; try done; lia.
Qed.

Lemma scan_keeps_last_record_witness :
  ∃ s, init {["data.db"%string := log_of three_records]} "data.db" = Some (Ok s) ∧
    key_dir s !! s_k
      = Some ("data.db"%string,
              len (raw_bytes (RawRecord 2 ["k"%byte] ["v"%byte; "2"%byte])),
              len (log_of [RawRecord 1 ["k"%byte] ["v"%byte; "1"%byte]]), 2) ∧
    fst (get s_k (World {["data.db"%string := log_of three_records]} s))
    = (v ← decode_utf8 ["v"%byte; "2"%byte]; Ok v).
Proof.
  apply (scan_keeps_last_record {["data.db"%string := log_of three_records]} "data.db"
           [RawRecord 1 ["k"%byte] ["v"%byte; "1"%byte]]
           [RawRecord 3 ["o"%byte; "t"%byte; "h"%byte; "e"%byte; "l"%byte;
                         "l"%byte; "o"%byte] ["x"%byte]]
           (RawRecord 2 ["k"%byte] ["v"%byte; "2"%byte]) s_k).
  - vm_compute. reflexivity.
  - vm_compute. reflexivity.
  - vm_compute. reflexivity.
  - repeat constructor. vm_compute. discriminate.
Defined.

(** X19: over a valid log, a key that no record of the log holds is not in
    the directory of the new engine, and [get] of it returns the empty
    string. *)
Theorem scan_indexes_only_logged_keys (d : gmap string bytes) (name : string)
    (rs : list raw_record) (key : str) :
  d !! name = Some (log_of rs) → forallb loadable rs = true →
  Forall (λ r, ¬ has_key key r) rs →
  ∃ s, init d name = Some (Ok s) ∧ key_dir s !! key = None ∧
    get key (World d s) = (Ok [], World d s).
Proof.
  intros Hd Hall Hrs.
  eexists. split; [by apply (init_log _ _ _ Hd Hall)|].
  assert (index_records name 0 rs ∅ !! key = None) as Hl
    by (by rewrite index_records_other_keys).
  split; [done|]. by apply get_absent.
Qed.

Lemma scan_indexes_only_logged_keys_witness :
  ∃ s, init {["data.db"%string := log_of three_records]} "data.db" = Some (Ok s) ∧
    key_dir s !! s_hamlet = None ∧
    get s_hamlet (World {["data.db"%string := log_of three_records]} s)
    = (Ok [], World {["data.db"%string := log_of three_records]} s).
Proof.
  apply (scan_indexes_only_logged_keys
           {["data.db"%string := log_of three_records]} "data.db" three_records s_hamlet).
  - reflexivity.
  - vm_compute. reflexivity.
  - repeat constructor; vm_compute; discriminate.
Defined.

(** X20: an engine constructed over no file or over a valid log has a
    sound directory, and keeps it through every sequence of [set] calls,
    returning or raising: each entry names the engine's file and spans a
    whole record of it that holds the entry's key and timestamp. *)
Theorem directory_stays_sound (d : gmap string bytes) (name : string)
    (s : DiskStorage) (kvs : list (str * str)) :
  d !! name = None ∨ (∃ data, d !! name = Some data ∧ valid_log data) →
  init d name = Some (Ok s) →
  dir_sound (after_sets kvs (World d s)).
Proof.
  intros Hfile Hinit. apply after_sets_dir_sound.
  by apply (init_dir_sound d name s).
Qed.

Lemma directory_stays_sound_witness :
  dir_sound (after_sets [(s_k, []); ([55296%N], s_v1); (s_k, s_v2)]
               (World ∅ (fresh "data.db"))).
Proof.
  apply (directory_stays_sound ∅ "data.db" (fresh "data.db")
           [(s_k, []); ([55296%N], s_v1); (s_k, s_v2)]).
  - left. reflexivity.
  - reflexivity.
Defined.

(** X21: in an engine with a sound directory, [get] returns a value or
    raises [UnicodeDecodeError], the value bytes of the record not being
    UTF-8; it raises no [AssertionError], no [struct.error] and no
    [FileNotFoundError]. *)
Theorem get_of_sound_directory (w : world) (key : str) :
  dir_sound w →
  (∃ v, fst (get key w) = Ok v) ∨ fst (get key w) = Raise UnicodeDecodeError.
Proof.
  intros Hsound.
  destruct (key_dir (self w) !! key) as [e|] eqn:Hk.
  - destruct (Hsound _ _ Hk) as (data & vb & Hd & Hspan).
    rewrite (get_entry_spans _ _ _ _ _ Hk Hd Hspan). cbn [fst].
    destruct (decode_utf8 vb) as [v|e'] eqn:Hv; cbn [mbind result_bind].
    + left. by exists v.
    + right. by rewrite (decode_utf8_Raise _ _ Hv).
  - left. exists []. by rewrite (get_absent _ _ Hk).
Qed.

Lemma get_of_sound_directory_witness :
  let w := after_sets [(s_k, s_v1)] (World ∅ (fresh "data.db")) in
  (∃ v, fst (get s_k w) = Ok v) ∨ fst (get s_k w) = Raise UnicodeDecodeError.
Proof.
  intros w. apply (get_of_sound_directory w s_k).
  apply (after_sets_dir_sound [(s_k, s_v1)]). done.
Defined.

(** X22: in an engine with a sound directory, [set(k, v)], returning or
    raising, does not change the outcome of [get] for any other key. *)
Theorem set_keeps_other_keys (w : world) (key k v : str) :
  dir_sound w → k ≠ key →
  fst (get key (snd (set k v w))) = fst (get key w).
Proof.
  intros Hsound Hne.
  destruct (encode_kv (timestamp (self w) + 1) k v) as [[sz datum]|e] eqn:He.
  - rewrite (set_Ok _ _ _ _ _ He). cbn [snd].
    destruct (key_dir (self w) !! key) as [e|] eqn:Hk.
    + destruct (Hsound _ _ Hk) as (data & vb & Hd & Hspan).
      rewrite (get_entry_spans _ _ _ _ _ Hk Hd Hspan).
      rewrite (get_entry_spans _ key e (data ++ datum) vb); [done|..].
      * cbn [self key_dir]. by rewrite lookup_insert_ne.
      * cbn [self disk file_name]. by rewrite lookup_insert_eq, Hd.
      * apply entry_spans_app. exact Hspan.
    + rewrite (get_absent _ _ Hk).
      rewrite get_absent; [done|]. cbn [self key_dir]. by rewrite lookup_insert_ne.
  - rewrite (set_Raise _ _ _ _ He). cbn [snd].
    destruct w as [d s]. cbn [disk self]. by apply get_same_directory.
Qed.

Lemma set_keeps_other_keys_witness :
  let w := after_sets [(s_k, s_v1)] (World ∅ (fresh "data.db")) in
  fst (get s_k (snd (set s_othello s_shakespeare w))) = fst (get s_k w).
Proof.
  intros w. apply (set_keeps_other_keys w s_k s_othello s_shakespeare).
  - apply (after_sets_dir_sound [(s_k, s_v1)]). done.
  - discriminate.
Defined.



(** X24: a log of whole records followed by fewer than 12 further bytes,
    but one at least, makes the construction of an engine raise
    [struct.error]. *)
Theorem scan_rejects_short_header (d : gmap string bytes) (name : string)
    (rs : list raw_record) (junk : bytes) :
  forallb loadable rs = true → junk ≠ [] → len junk < 12 →
  d !! name = Some (log_of rs ++ junk) →
  init d name = Some (Raise StructError).
Proof.
  intros Hrs Hne Hlen Hd. unfold init. rewrite Hd.
  pose proof (scan_reaches_log rs [] junk
                {| timestamp := 0; file_name := name; key_dir := ∅ |} Hrs) as Hreach.
  change ([] ++ log_of rs ++ junk) with (log_of rs ++ junk) in Hreach.
  change ([] ++ log_of rs) with (log_of rs) in Hreach.
  change (length (@nil byte)) with 0%nat in Hreach.
  rewrite (key_dir_from_reaches _ _ _ _ Hreach).
  unfold key_dir_from. cbn [key_dir_loop].
  rewrite (body_short_header _ _ junk); [done| |done|done].
  cbn [offset contents]. by rewrite drop_app_length.
Qed.

Lemma scan_rejects_short_header_witness :
  init {["data.db"%string := log_of three_records ++ ["001"%byte; "000"%byte]]} "data.db"
  = Some (Raise StructError).
Proof.
  apply (scan_rejects_short_header _ "data.db" three_records ["001"%byte; "000"%byte]).
  - vm_compute. reflexivity.
  - discriminate.
  - vm_compute. reflexivity.
  - reflexivity.
Defined.

(** X25: [get] of a key whose entry names another file than the engine's
    raises [AssertionError], and [get] of a key whose entry names the
    engine's file raises [FileNotFoundError] when that file does not
    exist. *)
Theorem get_checks_file_name_then_file (w : world) (key : str) (name : string)
    (sz pos ts : Z) :
  key_dir (self w) !! key = Some (name, sz, pos, ts) →
  (name ≠ file_name (self w) → fst (get key w) = Raise AssertionError) ∧
  (name = file_name (self w) → disk w !! name = None →
     fst (get key w) = Raise FileNotFoundError).
Proof.
  intros Hk. rewrite (get_present _ _ _ _ _ _ Hk). cbn [fst]. split.
  - intros Hne. by rewrite bool_decide_eq_false_2.
  - intros Heq Hnone. by rewrite bool_decide_eq_true_2, Hnone.
Qed.

Lemma get_checks_file_name_then_file_witness :
  let s := with_key_dir (<[s_k := ("data.db"%string, 15, 0, 1)]> ∅) (fresh "data.db") in
  fst (get s_k (World ∅ s)) = Raise FileNotFoundError.
Proof.
  intros s.
  apply (proj2 (get_checks_file_name_then_file (World ∅ s) s_k "data.db" 15 0 1
                  ltac:(vm_compute; reflexivity))).
  - reflexivity.
  - reflexivity.
Defined.
